(** * BOB help queues: [src/queue.ts]

    A shallow embedding of the two classes of [queue.ts], [HelpQueue] and
    [HelpQueueDisplayManager], and the properties of the queue state machine
    and of the display reconciliation.

    Conventions of the embedding.
    - A [GuildMember] is a discord.js object compared by reference; it is
      modelled by the two fields the code reads, and two members are the same
      object when the records are equal.
    - A JavaScript [Set<GuildMember>] is a [gset GuildMember]; [forEach] and
      [Array.from] enumerate it with [elements]: no duplicates, in the
      order of [elements] where JavaScript goes by insertion.  What is
      proved about messages is stated per recipient, with [sent_to], and
      does not depend on that order.
    - The [async] methods are run to completion one at a time: every method
      of [HelpQueue] performs all its writes to the queue object before its
      first suspension, and calls into the platform (direct messages, the
      display manager) are recorded, in program order, in a trace of
      [Event]s.  The display manager, whose behaviour depends on the order
      in which promises settle, has a scheduler of its own further down.
    - A call that throws aborts the method at that point: what was written
      before the throw stays written.  A method throws a [UserError]
      ([Dequeue], the registry of member states), or fails because a call
      into the platform that it awaits is rejected: the refresh of the
      display in every method that refreshes, the heads-up messages of
      [Enqueue].  The platform decides which calls it rejects; the messages
      of [NotifyUsers] are sent without being awaited, so their rejection
      never reaches the method. *)

From stdpp Require Import base decidable countable gmap strings list pretty.

(** ** Platform values *)

(** The part of a discord.js [GuildMember] that the code reads:
    [member.user.id] and [member.user.username]. *)
Record GuildMember : Type := mkGuildMember {
  user_id : string;
  username : string
}.

#[global] Instance GuildMember_eq_dec : EqDecision GuildMember.
Proof. solve_decision. Defined.

#[global] Instance GuildMember_countable : Countable GuildMember.
Proof.
  refine (inj_countable' (λ m, (user_id m, username m))
                         (λ p, mkGuildMember p.1 p.2) _).
  by intros [].
Defined.

(** [UserError] of [user_action_error.ts]: an error shown to the user. *)
Record UserError : Type := new_UserError { message : string }.

#[global] Instance UserError_eq_dec : EqDecision UserError.
Proof. solve_decision. Defined.

(** Modelled from the spec: [member_state_manager.ts] is not part of the
    sources.  A [MemberState] is the per-member object handed out by
    [MemberStateManager.GetMemberState] ("opaque token used for membership
    tests"); the code reads its [member] field and compares states by
    reference.  There is one state object per member, so the token is the
    member it belongs to; what the object remembers about queues lives in
    the registry store of [MemberStateManager] below. *)
Record MemberState : Type := mkMemberState { member : GuildMember }.

#[global] Instance MemberState_eq_dec : EqDecision MemberState.
Proof. solve_decision. Defined.

Definition GetMemberState (m : GuildMember) : MemberState := mkMemberState m.

(** A queue is passed to the registry as [this]; the reference is the
    queue's name. *)
Definition QueueRef : Type := string.

(** The two methods of [MemberState] that [HelpQueue] calls.  Their bodies
    are outside the sources, so they are an interface: a store [Registry]
    holding the mutable part of every [MemberState], and for each method
    either the store after the call ([inr]) or the error it throws
    ([inl]). *)
Class MemberStateManager : Type := {
  Registry : Type;
  TryAddToQueue : MemberState → QueueRef → Registry → UserError + Registry;
  TryRemoveFromQueue : MemberState → QueueRef → Registry → UserError + Registry
}.

(** ** The queue object *)

Record HelpQueue : Type := mkHelpQueue {
  queue : list MemberState;
  name : string;
  helpers : gset GuildMember;
  notif_queue : gset GuildMember
}.

#[global] Instance HelpQueue_eq_dec : EqDecision HelpQueue.
Proof. solve_decision. Defined.

(** [new HelpQueue(name, display_manager, member_state_manager)] *)
Definition new_HelpQueue (n : string) : HelpQueue :=
  mkHelpQueue [] n ∅ ∅.

Definition set_queue (l : list MemberState) (q : HelpQueue) : HelpQueue :=
  mkHelpQueue l (name q) (helpers q) (notif_queue q).
Definition set_helpers (h : gset GuildMember) (q : HelpQueue) : HelpQueue :=
  mkHelpQueue (queue q) (name q) h (notif_queue q).
Definition set_notif_queue (s : gset GuildMember) (q : HelpQueue) : HelpQueue :=
  mkHelpQueue (queue q) (name q) (helpers q) s.

(** [get length()] *)
Definition HelpQueue_length (q : HelpQueue) : nat := length (queue q).

(** [get is_open()]: [this.helpers.size > 0] *)
Definition is_open (q : HelpQueue) : bool := bool_decide (0 < size (helpers q)).

(** The members waiting, in queue order. *)
Definition members (q : HelpQueue) : list GuildMember := member <$> queue q.

(** [Has(member)] *)
Definition Has (m : GuildMember) (q : HelpQueue) : bool :=
  match List.find (λ queue_member, bool_decide (member queue_member = m)) (queue q) with
  | Some _ => true
  | None => false
  end.

(** [Peek()] *)
Definition Peek (q : HelpQueue) : option MemberState :=
  match queue q with
  | [] => None
  | user_state :: _ => Some user_state
  end.

(** ** Effects *)

(** What a method does to the outside, in program order. *)
Inductive Event : Type :=
| EvWarn (text : string)                               (* console.warn(text) *)
| EvSend (recipient : GuildMember) (text : string)     (* recipient.send(text) *)
| EvTryAddToQueue (state : MemberState) (q : QueueRef)
| EvTryRemoveFromQueue (state : MemberState) (q : QueueRef)
| EvOnQueueUpdate (this : HelpQueue) (queue_members : list MemberState)
| EvEnsureQueueSafe.                                   (* display_manager.EnsureQueueSafe() *)

#[global] Instance Event_eq_dec : EqDecision Event.
Proof. solve_decision. Defined.

(** How a method ends: it returns, it throws a [UserError], or the promise
    of a platform call it awaits is rejected and it fails with the error of
    the platform. *)
Inductive Outcome (A : Type) : Type :=
| Returned (a : A)
| Thrown (e : UserError)
| Failed.
Arguments Returned {A} a.
Arguments Thrown {A} e.
Arguments Failed {A}.

(** The platform (discord.js and, behind [OnQueueUpdate], the display
    channel) is outside [HelpQueue]: [rejects e] tells whether the promise
    of the call [e] is rejected.  For [EvOnQueueUpdate] this is the promise
    of [display_manager.OnQueueUpdate], rejected when the [send], the [pin]
    or the [edit] it awaits is; for [EvSend] the promise of [send]; for
    [EvEnsureQueueSafe] the promise of [display_manager.EnsureQueueSafe]. *)
Class Platform : Type := {
  rejects : Event → bool
}.

(** The double quote and the line feed, for the message texts. *)
Definition dquote : string := String (Ascii.ascii_of_nat 34) EmptyString.
Definition newline : string := String (Ascii.ascii_of_nat 10) EmptyString.

Section queue_methods.
Context `{MSM : MemberStateManager} `{PF : Platform}.

(** The queue object and the registry it was constructed with. *)
Record World : Type := mkWorld {
  this_queue : HelpQueue;
  registry : Registry
}.

(** A method body: from the world before to the outcome, the world after
    and the events emitted. *)
Definition Task (A : Type) : Type := World → Outcome A * World * list Event.

Definition ret {A} (a : A) : Task A := λ w, (Returned a, w, []).
Definition throw {A} (e : UserError) : Task A := λ w, (Thrown e, w, []).
Definition bind {A B} (t : Task A) (k : A → Task B) : Task B := λ w,
  match t w with
  | (Returned a, w1, tr1) =>
      match k a w1 with
      | (o, w2, tr2) => (o, w2, tr1 ++ tr2)
      end
  | (Thrown e, w1, tr1) => (Thrown e, w1, tr1)
  | (Failed, w1, tr1) => (Failed, w1, tr1)
  end.

#[local] Instance Task_ret : MRet Task := @ret.
#[local] Instance Task_bind : MBind Task := λ A B k t, bind t k.

Definition this : Task HelpQueue := λ w, (Returned (this_queue w), w, []).
Definition update_this (f : HelpQueue → HelpQueue) : Task unit := λ w,
  (Returned (), mkWorld (f (this_queue w)) (registry w), []).
Definition emit (e : Event) : Task unit := λ w, (Returned (), w, [e]).

(** A call into the registry: the call is recorded, then it either updates
    the store or throws. *)
Definition registry_call (e : Event)
    (method : Registry → UserError + Registry) : Task unit := λ w,
  match method (registry w) with
  | inr r => (Returned (), mkWorld (this_queue w) r, [e])
  | inl err => (Thrown err, w, [e])
  end.

(** [forEach]: run [f] on every element, in order. *)
Fixpoint forEach {A} (f : A → Task unit) (l : list A) : Task unit :=
  match l with
  | [] => mret ()
  | x :: l' => f x;; forEach f l'
  end.

(** [await] of platform calls: the calls are made, in order, and the
    method goes on only if the promise of every one of them is fulfilled
    ([await p] for one call, [await Promise.all(ps)] for several). *)
Definition fulfilled (calls : list Event) : bool :=
  forallb (λ e, negb (rejects e)) calls.

Definition awaited (calls : list Event) : Outcome unit :=
  if fulfilled calls then Returned () else Failed.

Definition await_all (calls : list Event) : Task unit := λ w,
  (awaited calls, w, calls).

(** [UpdateDisplay()] *)
Definition UpdateDisplay : Task unit :=
  q ← this;
  await_all [EvOnQueueUpdate q (queue q)].

(** [EnsureQueueSafe()] of [HelpQueue] *)
Definition HelpQueue_EnsureQueueSafe : Task unit :=
  await_all [EvEnsureQueueSafe].

(** [NotifyUsers()] *)
Definition NotifyUsers : Task unit :=
  q ← this;
  if bool_decide (size (notif_queue q) = 0) then mret ()
  else
    forEach (λ m, emit (EvSend m ("Hey! The `" +:+ name q +:+ "` queue is now open!")))
            (elements (notif_queue q));;
    update_this (set_notif_queue ∅).

(** [AddHelper(member, mute_notifs)] *)
Definition AddHelper (m : GuildMember) (mute_notifs : bool) : Task unit :=
  q ← this;
  if bool_decide (m ∈ helpers q) then
    emit (EvWarn ("Queue " +:+ name q +:+ " already has helper " +:+ username m
                  +:+ ". Ignoring call to AddHelper"))
  else
    update_this (λ q, set_helpers ({[m]} ∪ helpers q) q);;
    q ← this;
    (if bool_decide (size (helpers q) = 1) && negb mute_notifs
     then NotifyUsers else mret ());;
    UpdateDisplay.

(** [RemoveHelper(member)] *)
Definition RemoveHelper (m : GuildMember) : Task unit :=
  q ← this;
  if negb (bool_decide (m ∈ helpers q)) then
    emit (EvWarn ("Queue " +:+ name q +:+ " does not have helper " +:+ username m
                  +:+ ". Ignoring call to RemoveHelper"))
  else
    update_this (λ q, set_helpers (helpers q ∖ {[m]}) q);;
    UpdateDisplay.

(** [Enqueue(member)] *)
Definition Enqueue (m : GuildMember) : Task unit :=
  let user_state := GetMemberState m in
  q ← this;
  registry_call (EvTryAddToQueue user_state (name q))
                (TryAddToQueue user_state (name q));;
  update_this (λ q, set_queue (queue q ++ [user_state]) q);;
  q ← this;
  (if bool_decide (length (queue q) = 1) then
     await_all ((λ helper, EvSend helper
                   ("Heads up! <@" +:+ user_id m +:+ "> has joined " +:+ dquote
                    +:+ name q +:+ dquote +:+ "."))
                <$> elements (helpers q))
   else mret ());;
  UpdateDisplay.

(** [Remove(member)] *)
Definition Remove (m : GuildMember) : Task unit :=
  let user_state := GetMemberState m in
  q ← this;
  registry_call (EvTryRemoveFromQueue user_state (name q))
                (TryRemoveFromQueue user_state (name q));;
  update_this (λ q, set_queue
    (filter (λ waiting_user, waiting_user ≠ user_state) (queue q)) q);;
  UpdateDisplay.

(** [this.queue.shift()] *)
Definition queue_shift : Task (option MemberState) :=
  q ← this;
  match queue q with
  | [] => mret None
  | user_state :: rest => update_this (set_queue rest);; mret (Some user_state)
  end.

(** [Dequeue()] *)
Definition Dequeue : Task MemberState :=
  user_state ← queue_shift;
  match user_state with
  | None => throw (new_UserError "Empty queue")
  | Some user_state =>
      q ← this;
      registry_call (EvTryRemoveFromQueue user_state (name q))
                    (TryRemoveFromQueue user_state (name q));;
      UpdateDisplay;;
      mret user_state
  end.

(** [Clear()] *)
Definition Clear : Task unit :=
  q ← this;
  forEach (λ user_state,
             registry_call (EvTryRemoveFromQueue user_state (name q))
                           (TryRemoveFromQueue user_state (name q)))
          (queue q);;
  update_this (set_queue []);;
  UpdateDisplay.

(** [AddToNotifQueue(member)] *)
Definition AddToNotifQueue (m : GuildMember) : Task unit :=
  update_this (λ q, set_notif_queue ({[m]} ∪ notif_queue q) q).

(** [RemoveFromNotifQueue(member)] *)
Definition RemoveFromNotifQueue (m : GuildMember) : Task unit :=
  update_this (λ q, set_notif_queue (notif_queue q ∖ {[m]}) q).

End queue_methods.

(** ** The display manager *)

(** A discord.js [User]; [client.user] is the bot itself. *)
Definition User : Type := string.

Record MessageButton : Type := mkMessageButton {
  customId : string;
  emoji : string;
  disabled : bool;
  label : string;
  style : string
}.

#[global] Instance MessageButton_eq_dec : EqDecision MessageButton.
Proof. solve_decision. Defined.

(** A [MessageActionRow] is the list of its components. *)
Definition MessageActionRow : Type := list MessageButton.

(** The argument of [send] and [edit]. *)
Record MessageOptions : Type := mkMessageOptions {
  content : string;
  components : list MessageActionRow
}.

#[global] Instance MessageOptions_eq_dec : EqDecision MessageOptions.
Proof. solve_decision. Defined.

(** A message of the display channel, as the platform holds it.  The client
    refers to it by [message_id]. *)
Definition MessageId : Type := nat.

Record Message : Type := mkMessage {
  message_id : MessageId;
  author : User;
  shown : MessageOptions;
  pinned : bool
}.

#[global] Instance Message_eq_dec : EqDecision Message.
Proof. solve_decision. Defined.

(** The display channel on the platform side: its messages and the id the
    next message gets. *)
Record TextChannel : Type := mkTextChannel {
  channel_messages : list Message;
  next_id : MessageId
}.

(** The fields of [HelpQueueDisplayManager]; [client] is kept as
    [client.user], the only thing read from it, and [display_channel] is a
    reference to the [TextChannel] of the world below. *)
Record HelpQueueDisplayManager : Type := mkDisplayManager {
  client_user : User;
  queue_message : option MessageId
}.

#[global] Instance HelpQueueDisplayManager_eq_dec : EqDecision HelpQueueDisplayManager.
Proof. solve_decision. Defined.

Definition set_queue_message (m : option MessageId)
    (dm : HelpQueueDisplayManager) : HelpQueueDisplayManager :=
  mkDisplayManager (client_user dm) m.

(** The npm package [ascii-table] is outside the sources: [toString] of a
    table with the given heading and rows is an interface. *)
Class AsciiTable : Type := {
  AsciiTable_toString : list string → list (nat * string) → string
}.

(** A call of the discord.js API; each returns a promise. *)
Inductive Request : Type :=
| fetchPinned
| channel_send (options : MessageOptions)
| message_pin (id : MessageId)
| message_edit (id : MessageId) (options : MessageOptions)
| message_delete (id : MessageId).

#[global] Instance Request_eq_dec : EqDecision Request.
Proof. solve_decision. Defined.

(** The [then] callbacks the code attaches to a promise. *)
Inductive Reaction : Type :=
| then_reconcile   (* EnsureQueueSafe: the filter and the branch on messages.size *)
| then_pin         (* message => message.pin() *)
| then_remember    (* message => this.queue_message = message *)
| then_nothing.    (* no callback that touches the manager or the channel *)

#[global] Instance Reaction_eq_dec : EqDecision Reaction.
Proof. solve_decision. Defined.

(** What happened on the display side, in the order it happened. *)
Inductive DisplayEvent : Type :=
| Issued (r : Request)      (* the client made the call *)
| Settled (r : Request)     (* the promise was fulfilled and its callback has run *)
| Rejected (r : Request).   (* the promise was rejected: its [then] callback is skipped *)

#[global] Instance DisplayEvent_eq_dec : EqDecision DisplayEvent.
Proof. solve_decision. Defined.

(** The manager, the channel it displays in, the calls whose promise has not
    settled yet with the callback attached to each, and the log. *)
Record DisplayWorld : Type := mkDisplayWorld {
  manager : HelpQueueDisplayManager;
  channel : TextChannel;
  pending : list (Request * Reaction);
  history : list DisplayEvent
}.

Section display_methods.
Context `{TBL : AsciiTable}.

(** [GetQueueText(queue, queue_members)] *)
Definition GetQueueText (q : HelpQueue) (queue_members : list MemberState) : string :=
  let quant_prase :=
    if bool_decide (HelpQueue_length q = 1) then "is 1 person"
    else "are " +:+ pretty (HelpQueue_length q) +:+ " people" in
  let status_line :=
    "The queue is **" +:+ (if is_open q then "OPEN" else "CLOSED")
    +:+ "**. There " +:+ quant_prase +:+ " in the queue." +:+ newline in
  if bool_decide (0 < HelpQueue_length q) then
    let table :=
      AsciiTable_toString ["Position"; "Username"]
        (imap (λ idx state, (idx + 1, username (member state))) queue_members) in
    status_line +:+ "```" +:+ newline +:+ table +:+ newline +:+ "```"
  else status_line.

Definition joinLeaveButtons (q : HelpQueue) : MessageActionRow :=
  [ mkMessageButton ("join " +:+ name q) "✅" (negb (is_open q)) "Join Queue" "SUCCESS";
    mkMessageButton ("leave " +:+ name q) "❎" (negb (is_open q)) "Leave Queue" "DANGER" ].

Definition notifButtons (q : HelpQueue) : MessageActionRow :=
  [ mkMessageButton ("notif " +:+ name q) "🔔" (is_open q) "Notify When Open" "PRIMARY";
    mkMessageButton ("removeN " +:+ name q) "🔕" (is_open q) "Remove Notifications" "PRIMARY" ].

(** The client makes a call and attaches a callback to its promise. *)
Definition issue (r : Request) (k : Reaction) (w : DisplayWorld) : DisplayWorld :=
  mkDisplayWorld (manager w) (channel w) (pending w ++ [(r, k)])
                 (history w ++ [Issued r]).

(** [display_channel.messages.fetchPinned()], what it resolves to. *)
Definition pinned_messages (c : TextChannel) : list Message :=
  filter (λ msg, pinned msg = true) (channel_messages c).

(** The callbacks of [EnsureQueueSafe], run on the fetched messages: the
    manager afterwards and the [delete] calls made. *)
Definition reconcile (dm : HelpQueueDisplayManager) (fetched : list Message)
    : HelpQueueDisplayManager * list Request :=
  let messages := filter (λ msg, author msg = client_user dm) fetched in
  if bool_decide (1 < length messages) then
    (set_queue_message None dm, (λ msg, message_delete (message_id msg)) <$> messages)
  else if bool_decide (length messages = 0) then
    (set_queue_message None dm, [])
  else (dm, []).

(** [EnsureQueueSafe()]: the call returns as soon as the fetch is issued;
    [reconcile] runs when the fetch settles. *)
Definition EnsureQueueSafe (w : DisplayWorld) : DisplayWorld :=
  issue fetchPinned then_reconcile w.

(** [OnQueueUpdate(queue, queue_members)] up to its [await]: the promise
    returned by [EnsureQueueSafe()] is dropped, and [send] is called
    next. *)
Definition OnQueueUpdate (q : HelpQueue) (queue_members : list MemberState)
    (w : DisplayWorld) : DisplayWorld :=
  let message_text := GetQueueText q queue_members in
  let options := mkMessageOptions message_text [joinLeaveButtons q; notifButtons q] in
  match queue_message (manager w) with
  | None => issue (channel_send options) then_pin (EnsureQueueSafe w)
  | Some m => issue (message_edit m options) then_nothing w
  end.

(** *** The platform *)

Definition has_message (id : MessageId) (c : TextChannel) : bool :=
  bool_decide (id ∈ message_id <$> channel_messages c).

Definition update_message (id : MessageId) (f : Message → Message)
    (c : TextChannel) : TextChannel :=
  mkTextChannel
    ((λ msg, if bool_decide (message_id msg = id) then f msg else msg)
       <$> channel_messages c)
    (next_id c).

(** The platform serves a call: the channel afterwards, and the messages
    the promise resolves to ([None]: the promise is rejected). *)
Definition serve (bot : User) (r : Request) (c : TextChannel)
    : TextChannel * option (list Message) :=
  match r with
  | fetchPinned => (c, Some (pinned_messages c))
  | channel_send options =>
      let msg := mkMessage (next_id c) bot options false in
      (mkTextChannel (channel_messages c ++ [msg]) (S (next_id c)), Some [msg])
  | message_pin id =>
      if has_message id c then
        let c' := update_message id
                    (λ msg, mkMessage (message_id msg) (author msg) (shown msg) true) c in
        (c', Some (filter (λ msg, message_id msg = id) (channel_messages c')))
      else (c, None)
  | message_edit id options =>
      if has_message id c then
        let c' := update_message id
                    (λ msg, mkMessage (message_id msg) (author msg) options (pinned msg)) c in
        (c', Some (filter (λ msg, message_id msg = id) (channel_messages c')))
      else (c, None)
  | message_delete id =>
      if has_message id c then
        (mkTextChannel (filter (λ msg, message_id msg ≠ id) (channel_messages c))
                       (next_id c), Some [])
      else (c, None)
  end.

(** The callback of a fulfilled promise runs: the manager afterwards and
    the calls the callback makes, each with its own callback. *)
Definition react (k : Reaction) (dm : HelpQueueDisplayManager)
    (resolved : list Message) : HelpQueueDisplayManager * list (Request * Reaction) :=
  match k with
  | then_reconcile =>
      let '(dm', deletes) := reconcile dm resolved in
      (dm', (λ r, (r, then_nothing)) <$> deletes)
  | then_pin =>
      (dm, (λ msg, (message_pin (message_id msg), then_remember)) <$> resolved)
  | then_remember =>
      (match resolved with
       | msg :: _ => set_queue_message (Some (message_id msg)) dm
       | [] => dm
       end, [])
  | then_nothing => (dm, [])
  end.

(** The [i]-th pending promise settles: the platform serves the call and
    the callback attached to it runs, in one step.  The runs of this
    scheduler are those in which a callback runs as soon as its call is
    answered; a run in which an answer is fixed first and its callback runs
    after other promises have settled is not among them. *)
Definition settle (i : nat) (w : DisplayWorld) : DisplayWorld :=
  match pending w !! i with
  | None => w
  | Some (r, k) =>
      let rest := delete i (pending w) in
      match serve (client_user (manager w)) r (channel w) with
      | (c, Some resolved) =>
          let '(dm, calls) := react k (manager w) resolved in
          mkDisplayWorld dm c (rest ++ calls)
                         (history w ++ [Settled r] ++ (Issued ∘ fst <$> calls))
      | (c, None) =>
          mkDisplayWorld (manager w) c rest (history w ++ [Rejected r])
      end
  end.

(** The promises settle in the order given by a schedule. *)
Definition settle_all (schedule : list nat) (w : DisplayWorld) : DisplayWorld :=
  foldl (λ w i, settle i w) w schedule.

End display_methods.

(** The texts a member was sent, in order. *)
Definition sent_to (m : GuildMember) (tr : list Event) : list string :=
  omap (λ e, match e with
             | EvSend recipient text => if bool_decide (recipient = m) then Some text else None
             | _ => None
             end) tr.

(** ** Sequences of calls *)

Section queue_runs.
Context `{MSM : MemberStateManager} `{PF : Platform}.

Definition outcome_of {A} (r : Outcome A * World * list Event) : Outcome A := r.1.1.
Definition world_after {A} (r : Outcome A * World * list Event) : World := r.1.2.
Definition trace_of {A} (r : Outcome A * World * list Event) : list Event := r.2.

(** A call of a public method of [HelpQueue] that can change the object. *)
Inductive Call : Type :=
| CallAddHelper (m : GuildMember) (mute_notifs : bool)
| CallRemoveHelper (m : GuildMember)
| CallEnqueue (m : GuildMember)
| CallRemove (m : GuildMember)
| CallDequeue
| CallClear
| CallAddToNotifQueue (m : GuildMember)
| CallRemoveFromNotifQueue (m : GuildMember)
| CallEnsureQueueSafe.

(** The world a call leaves behind, whether it returns or throws. *)
Definition perform (c : Call) (w : World) : World :=
  match c with
  | CallAddHelper m mute_notifs => world_after (AddHelper m mute_notifs w)
  | CallRemoveHelper m => world_after (RemoveHelper m w)
  | CallEnqueue m => world_after (Enqueue m w)
  | CallRemove m => world_after (Remove m w)
  | CallDequeue => world_after (Dequeue w)
  | CallClear => world_after (Clear w)
  | CallAddToNotifQueue m => world_after (AddToNotifQueue m w)
  | CallRemoveFromNotifQueue m => world_after (RemoveFromNotifQueue m w)
  | CallEnsureQueueSafe => world_after (HelpQueue_EnsureQueueSafe w)
  end.

Definition run_calls (cs : list Call) (w : World) : World :=
  foldl (λ w c, perform c w) w cs.

(** The three calls that change who is waiting. *)
Inductive QueueCall : Type :=
| DoEnqueue (m : GuildMember)
| DoRemove (m : GuildMember)
| DoDequeue.

Definition call_of (c : QueueCall) : Call :=
  match c with
  | DoEnqueue m => CallEnqueue m
  | DoRemove m => CallRemove m
  | DoDequeue => CallDequeue
  end.

(** The world after the first [t] calls of [cs]. *)
Definition state_after (cs : list QueueCall) (w0 : World) (t : nat) : World :=
  run_calls (call_of <$> take t cs) w0.

(** Who is waiting after the first [t] calls of [cs]. *)
Definition waiting_after (cs : list QueueCall) (w0 : World) (t : nat)
    : list GuildMember :=
  members (this_queue (state_after cs w0 t)).

(** [m] joined with call number [t] of [cs], an [Enqueue(m)], and has been
    waiting ever since: not waiting before that call, waiting after it and
    after every later call. *)
Definition waiting_since (cs : list QueueCall) (w0 : World)
    (m : GuildMember) (t : nat) : Prop :=
  cs !! t = Some (DoEnqueue m) ∧
  (m ∉ waiting_after cs w0 t) ∧
  (∀ t', t < t' → t' ≤ length cs → m ∈ waiting_after cs w0 t').

(** Modelled from the spec: the bodies of [TryAddToQueue] and
    [TryRemoveFromQueue] are missing; the spec describes the registry as
    the one that "enforces a member may be in at most one queue at a time"
    and "tracks which queue(s) a member occupies".  [occupies r s q] reads:
    in store [r], state [s] is recorded as waiting in queue [q].  The
    contract asks no more than: [TryAddToQueue] returns only for a state
    that does not occupy the queue yet and records it, and neither method
    touches the record of another state. *)
Record tracks_occupancy (occupies : Registry → MemberState → QueueRef → Prop) : Prop := {
  add_needs_vacancy : ∀ s q r r',
    TryAddToQueue s q r = inr r' → ¬ occupies r s q;
  add_records : ∀ s q r r',
    TryAddToQueue s q r = inr r' → occupies r' s q;
  add_keeps_others : ∀ s q r r' s' q',
    TryAddToQueue s q r = inr r' → s' ≠ s → occupies r s' q' → occupies r' s' q';
  remove_keeps_others : ∀ s q r r' s' q',
    TryRemoveFromQueue s q r = inr r' → s' ≠ s → occupies r s' q' → occupies r' s' q'
}.

Definition registry_enforces_single_queue : Prop :=
  ∃ occupies, tracks_occupancy occupies.

(** The queue object agrees with the registry: no state is in [queue]
    twice, and every state in [queue] is recorded as waiting in this
    queue. *)
Definition queue_recorded (occupies : Registry → MemberState → QueueRef → Prop)
    (w : World) : Prop :=
  NoDup (queue (this_queue w)) ∧
  ∀ s, s ∈ queue (this_queue w) → occupies (registry w) s (name (this_queue w)).

(** A call with its outcome and trace; the state returned by [Dequeue] is
    dropped. *)
Definition attempt (c : Call) (w : World) : Outcome unit * World * list Event :=
  match c with
  | CallAddHelper m mute_notifs => AddHelper m mute_notifs w
  | CallRemoveHelper m => RemoveHelper m w
  | CallEnqueue m => Enqueue m w
  | CallRemove m => Remove m w
  | CallDequeue =>
      match Dequeue w with
      | (Returned _, w', tr) => (Returned (), w', tr)
      | (Thrown e, w', tr) => (Thrown e, w', tr)
      | (Failed, w', tr) => (Failed, w', tr)
      end
  | CallClear => Clear w
  | CallAddToNotifQueue m => AddToNotifQueue m w
  | CallRemoveFromNotifQueue m => RemoveFromNotifQueue m w
  | CallEnsureQueueSafe => HelpQueue_EnsureQueueSafe w
  end.

End queue_runs.

(** The calls of [display_manager.OnQueueUpdate] in a trace. *)
Definition is_refresh (e : Event) : bool :=
  match e with
  | EvOnQueueUpdate _ _ => true
  | _ => false
  end.

(** ** Stand-ins for the collaborators, for closed examples *)

(** Modelled from the spec: a registry that "enforces a member may be in
    at most one queue at a time".  The store maps a member to the queue its
    state is in; [TryAddToQueue] throws for a member that is in a queue and
    records the queue otherwise; [TryRemoveFromQueue] forgets the member's
    queue if it is the given one ("no-op on absence").  The text of the error
    is not given by the spec. *)
Definition single_queue_registry : MemberStateManager := {|
  Registry := gmap GuildMember QueueRef;
  TryAddToQueue s q r :=
    match r !! member s with
    | Some _ => inl (new_UserError "Already in a queue")
    | None => inr (<[member s := q]> r)
    end;
  TryRemoveFromQueue s q r :=
    if bool_decide (r !! member s = Some q) then inr (delete (member s) r) else inr r
|}.

(** A stricter registry, for the cases where a registry call throws: as
    above, except that [TryRemoveFromQueue] throws for a state that is not
    recorded in the given queue. *)
Definition strict_registry : MemberStateManager := {|
  Registry := gmap GuildMember QueueRef;
  TryAddToQueue s q r :=
    match r !! member s with
    | Some _ => inl (new_UserError "Already in a queue")
    | None => inr (<[member s := q]> r)
    end;
  TryRemoveFromQueue s q r :=
    if bool_decide (r !! member s = Some q) then inr (delete (member s) r)
    else inl (new_UserError "Not in the queue")
|}.

(** A platform that fulfils every call. *)
Definition reliable_platform : Platform := {| rejects _ := false |}.

(** A platform on which every refresh of the display is rejected, as when
    the manager holds a message that was deleted from the channel and its
    [edit] is rejected; direct messages are delivered. *)
Definition stale_display : Platform := {|
  rejects e := match e with
               | EvOnQueueUpdate _ _ => true
               | _ => false
               end
|}.

(** A platform on which a member cannot be sent direct messages; the
    display is refreshed. *)
Definition unreachable (m : GuildMember) : Platform := {|
  rejects e := match e with
               | EvSend recipient _ => bool_decide (recipient = m)
               | _ => false
               end
|}.

(** A table printer that lists the user names, one per line. *)
Definition plain_table : AsciiTable := {|
  AsciiTable_toString heading rows :=
    foldr (λ row acc, row.2 +:+ newline +:+ acc) "" rows
|}.

(** The people of the scenarios. *)
Definition alice : GuildMember := mkGuildMember "1001" "alice".
Definition bob : GuildMember := mkGuildMember "1002" "bob".
Definition ta1 : GuildMember := mkGuildMember "2001" "ta1".

(** The display surface of the scenarios: the bot, a message it pinned
    earlier, and a manager that holds no message. *)
Definition bot : User := "BOB".

Definition stale_artifact (id : MessageId) : Message :=
  mkMessage id bot (mkMessageOptions "The queue is **CLOSED**." []) true.

Definition display_with (msgs : list Message) (next : MessageId) : DisplayWorld :=
  mkDisplayWorld (mkDisplayManager bot None) (mkTextChannel msgs next) [] [].

(** * Properties of [HelpQueue] *)

Section queue_facts.
Context `{MSM : MemberStateManager} `{PF : Platform}.

#[local] Ltac unfold_task :=
  unfold mbind, mret, Task_bind, Task_ret, bind, ret, throw, this,
    registry_call, update_this, UpdateDisplay, await_all.

Lemma awaited_nil : awaited [] = Returned ().
Proof. done. Qed.

Lemma emit_run (e : Event) (w : World) : emit e w = (Returned (), w, [e]).
Proof. done. Qed.

Lemma forEach_emit {A} (f : A → Event) (l : list A) (w : World) :
  forEach (λ x, emit (f x)) l w = (Returned (), w, f <$> l).
Proof.
  induction l as [|x l IH]; [done|].
  simpl. unfold_task. rewrite emit_run. by rewrite IH.
Qed.

Lemma set_queue_same q : set_queue (queue q) q = q.
Proof. by destruct q. Qed.

Lemma members_set_queue l q : members (set_queue l q) = member <$> l.
Proof. done. Qed.

Lemma elem_of_members m q : m ∈ members q ↔ GetMemberState m ∈ queue q.
Proof.
  unfold members. rewrite list_elem_of_fmap. split.
  - intros ([m'] & -> & Hin). exact Hin.
  - intros Hin. by exists (GetMemberState m).
Qed.

Lemma filter_absent (s : MemberState) (l : list MemberState) :
  s ∉ l → filter (λ waiting_user, waiting_user ≠ s) l = l.
Proof.
  induction l as [|x l IH]; [done|].
  rewrite not_elem_of_cons. intros [Hne Hnin].
  rewrite filter_cons_True by done. by rewrite IH.
Qed.

(** *** The methods, evaluated *)

Lemma NotifyUsers_run q reg :
  NotifyUsers (mkWorld q reg) =
    (Returned (), mkWorld (set_notif_queue ∅ q) reg,
     (λ m, EvSend m ("Hey! The `" +:+ name q +:+ "` queue is now open!"))
       <$> elements (notif_queue q)).
Proof.
  unfold NotifyUsers. unfold_task. simpl. case_bool_decide as Hsz.
  - apply size_empty_inv in Hsz. apply leibniz_equiv in Hsz.
    destruct q as [l n h s]; simpl in *. subst s.
    by rewrite elements_empty.
  - rewrite forEach_emit. simpl. by rewrite app_nil_r.
Qed.

Lemma AddHelper_already q reg m mute_notifs :
  m ∈ helpers q →
  AddHelper m mute_notifs (mkWorld q reg) =
    (Returned (), mkWorld q reg,
     [EvWarn ("Queue " +:+ name q +:+ " already has helper " +:+ username m
              +:+ ". Ignoring call to AddHelper")]).
Proof.
  intros Hin. unfold AddHelper. unfold_task. simpl.
  by rewrite bool_decide_eq_true_2.
Qed.

Lemma RemoveHelper_absent q reg m :
  m ∉ helpers q →
  RemoveHelper m (mkWorld q reg) =
    (Returned (), mkWorld q reg,
     [EvWarn ("Queue " +:+ name q +:+ " does not have helper " +:+ username m
              +:+ ". Ignoring call to RemoveHelper")]).
Proof.
  intros Hnin. unfold RemoveHelper. unfold_task. simpl.
  by rewrite bool_decide_eq_false_2.
Qed.

Lemma AddHelper_first_muted q reg m :
  helpers q = ∅ →
  AddHelper m true (mkWorld q reg) =
    let q' := set_helpers {[m]} q in
    (awaited [EvOnQueueUpdate q' (queue q')], mkWorld q' reg,
     [EvOnQueueUpdate q' (queue q')]).
Proof.
  intros Hh. unfold AddHelper. unfold_task. simpl. rewrite Hh.
  rewrite bool_decide_eq_false_2 by set_solver.
  simpl. rewrite Hh, (right_id_L ∅ (∪)). by rewrite andb_false_r.
Qed.

Lemma AddHelper_first_loud q reg m :
  helpers q = ∅ →
  AddHelper m false (mkWorld q reg) =
    let q' := set_notif_queue ∅ (set_helpers {[m]} q) in
    (awaited [EvOnQueueUpdate q' (queue q')], mkWorld q' reg,
     ((λ s, EvSend s ("Hey! The `" +:+ name q +:+ "` queue is now open!"))
        <$> elements (notif_queue q)) ++ [EvOnQueueUpdate q' (queue q')]).
Proof.
  intros Hh. unfold AddHelper. unfold_task. simpl. rewrite Hh.
  rewrite bool_decide_eq_false_2 by set_solver.
  simpl. rewrite Hh, (right_id_L ∅ (∪)), size_singleton. simpl.
  by rewrite NotifyUsers_run.
Qed.

Lemma Enqueue_run m q reg :
  Enqueue m (mkWorld q reg) =
    let user_state := GetMemberState m in
    match TryAddToQueue user_state (name q) reg with
    | inl e => (Thrown e, mkWorld q reg, [EvTryAddToQueue user_state (name q)])
    | inr reg' =>
        let q' := set_queue (queue q ++ [user_state]) q in
        let heads_up :=
          if bool_decide (queue q = []) then
            (λ helper, EvSend helper
               ("Heads up! <@" +:+ user_id m +:+ "> has joined " +:+ dquote
                +:+ name q +:+ dquote +:+ "."))
              <$> elements (helpers q)
          else [] in
        (if fulfilled heads_up then awaited [EvOnQueueUpdate q' (queue q')] else Failed,
         mkWorld q' reg',
         EvTryAddToQueue user_state (name q)
         :: heads_up
         ++ (if fulfilled heads_up then [EvOnQueueUpdate q' (queue q')] else []))
    end.
Proof.
  unfold Enqueue. unfold_task. cbn [this_queue registry name set_queue queue].
  destruct (TryAddToQueue _ _ _) as [e|reg']; [done|].
  cbn [this_queue registry name set_queue queue app]. cbv zeta.
  destruct (queue q) as [|x l] eqn:Hq.
  - rewrite !bool_decide_eq_true_2 by done. unfold awaited at 1.
    destruct (fulfilled _); [|by rewrite app_nil_r].
    by cbn [app].
  - rewrite bool_decide_eq_false_2 by (rewrite length_app; simpl; lia).
    rewrite bool_decide_eq_false_2 by done. done.
Qed.

Lemma Remove_run m q reg :
  Remove m (mkWorld q reg) =
    let user_state := GetMemberState m in
    match TryRemoveFromQueue user_state (name q) reg with
    | inl e => (Thrown e, mkWorld q reg, [EvTryRemoveFromQueue user_state (name q)])
    | inr reg' =>
        let q' := set_queue (filter (λ waiting_user, waiting_user ≠ user_state) (queue q)) q in
        (awaited [EvOnQueueUpdate q' (queue q')], mkWorld q' reg',
         [EvTryRemoveFromQueue user_state (name q); EvOnQueueUpdate q' (queue q')])
    end.
Proof.
  unfold Remove. unfold_task. simpl.
  by destruct (TryRemoveFromQueue _ _ _) as [e|reg'].
Qed.

Lemma Dequeue_run q reg :
  Dequeue (mkWorld q reg) =
    match queue q with
    | [] => (Thrown (new_UserError "Empty queue"), mkWorld q reg, [])
    | user_state :: rest =>
        let q' := set_queue rest q in
        match TryRemoveFromQueue user_state (name q) reg with
        | inl e => (Thrown e, mkWorld q' reg, [EvTryRemoveFromQueue user_state (name q)])
        | inr reg' =>
            (if fulfilled [EvOnQueueUpdate q' rest] then Returned user_state else Failed,
             mkWorld q' reg',
             [EvTryRemoveFromQueue user_state (name q); EvOnQueueUpdate q' rest])
        end
    end.
Proof.
  unfold Dequeue, queue_shift. unfold_task. simpl.
  destruct (queue q) as [|user_state rest]; simpl; [done|].
  destruct (TryRemoveFromQueue _ _ _) as [e|reg']; simpl; [done|].
  unfold awaited, fulfilled. simpl. by destruct (rejects _).
Qed.

Lemma sent_to_cons_send s x text tr :
  sent_to s (EvSend x text :: tr) =
    if bool_decide (x = s) then text :: sent_to s tr else sent_to s tr.
Proof. unfold sent_to. simpl. by case_bool_decide. Qed.

Lemma sent_to_fmap_send (s : GuildMember) (text : string) (l : list GuildMember) :
  NoDup l →
  sent_to s ((λ m, EvSend m text) <$> l) = if bool_decide (s ∈ l) then [text] else [].
Proof.
  induction 1 as [|x l Hx Hnd IH]; [done|].
  rewrite fmap_cons, sent_to_cons_send, IH.
  destruct (decide (x = s)) as [->|Hne].
  - rewrite bool_decide_eq_true_2 by done.
    rewrite (bool_decide_eq_false_2 (s ∈ l)) by done.
    by rewrite bool_decide_eq_true_2 by apply list_elem_of_here.
  - rewrite bool_decide_eq_false_2 by done.
    rewrite (bool_decide_ext (s ∈ x :: l) (s ∈ l)); [done|].
    rewrite elem_of_cons. intuition congruence.
Qed.

Lemma sent_to_app s tr1 tr2 : sent_to s (tr1 ++ tr2) = sent_to s tr1 ++ sent_to s tr2.
Proof. unfold sent_to. apply omap_app. Qed.

End queue_facts.

Section queue_claims.
Context `{MSM : MemberStateManager} `{PF : Platform}.

Lemma is_open_true_iff (q : HelpQueue) : is_open q = true ↔ helpers q ≠ ∅.
Proof.
  unfold is_open. rewrite bool_decide_eq_true.
  split.
  - intros Hpos Hempty. rewrite Hempty, size_empty in Hpos. lia.
  - intros Hne. destruct (size (helpers q)) eqn:Hsz; [|lia].
    apply size_empty_inv in Hsz. apply leibniz_equiv in Hsz. done.
Qed.

(** C2.  [is_open] is [true] exactly when [helpers] is not empty: in every
    state of a queue, and so in every state reached from a new queue by
    any sequence of calls of its methods. *)
Theorem is_open_iff_helpers_nonempty :
  (∀ q : HelpQueue, is_open q = true ↔ helpers q ≠ ∅) ∧
  (∀ (n : string) (reg0 : Registry) (cs : list Call),
     let q := this_queue (run_calls cs (mkWorld (new_HelpQueue n) reg0)) in
     is_open q = true ↔ helpers q ≠ ∅).
Proof.
  split.
  - apply is_open_true_iff.
  - intros n reg0 cs q. apply is_open_true_iff.
Qed.

(** C3, as amended.  When [AddHelper] adds the first helper with
    [mute_notifs] false, [notif_queue] is empty afterwards; with
    [mute_notifs] true the queue opens as well and [notif_queue] is left
    as it was. *)
Theorem AddHelper_opening_drains_unless_muted (q : HelpQueue) (reg : Registry)
    (m : GuildMember) :
  helpers q = ∅ →
  let loud := this_queue (world_after (AddHelper m false (mkWorld q reg))) in
  let muted := this_queue (world_after (AddHelper m true (mkWorld q reg))) in
  (is_open q = false ∧ is_open loud = true ∧ notif_queue loud = ∅) ∧
  (is_open muted = true ∧ notif_queue muted = notif_queue q).
Proof.
  intros Hh loud muted. subst loud muted.
  rewrite AddHelper_first_loud, AddHelper_first_muted by done.
  assert (Hclosed : is_open q = false).
  { apply not_true_is_false. rewrite is_open_true_iff. by intros []. }
  assert (Hopen : ∀ q', helpers q' = {[m]} → is_open q' = true).
  { intros q' Hq'. apply is_open_true_iff. rewrite Hq'.
    intros Heq. assert (Hin : m ∈ (∅ : gset GuildMember)) by (rewrite <- Heq; by apply elem_of_singleton).
    by apply not_elem_of_empty in Hin. }
  simpl. repeat split; try done; by apply Hopen.
Qed.

(** C4, as amended.  When [AddHelper(member, false)] adds the first helper,
    [notif_queue] is empty afterwards, and every member that was in
    [notif_queue] is sent exactly one message, whose text is
    [Hey! The `<name>` queue is now open!]; nobody else is sent anything. *)
Theorem AddHelper_opening_notifies (q : HelpQueue) (reg : Registry) (m : GuildMember) :
  helpers q = ∅ →
  let r := AddHelper m false (mkWorld q reg) in
  notif_queue (this_queue (world_after r)) = ∅ ∧
  ∀ s : GuildMember,
    sent_to s (trace_of r) =
      if bool_decide (s ∈ notif_queue q)
      then ["Hey! The `" +:+ name q +:+ "` queue is now open!"]
      else [].
Proof.
  intros Hh r. subst r. rewrite AddHelper_first_loud by done.
  split; [done|]. intros s. unfold trace_of. cbv zeta. cbn [snd].
  rewrite sent_to_app, sent_to_fmap_send by apply NoDup_elements.
  rewrite app_nil_r. apply (f_equal (λ b : bool, if b then _ else _)).
  apply bool_decide_ext, elem_of_elements.
Qed.

(** C5, as amended.  On an empty queue [Dequeue] throws the [UserError]
    "Empty queue", leaves the queue object and the registry as they were
    and makes no call at all, so no display refresh.  On a queue with head
    [user_state], once the registry call has returned, the head is out of
    the queue, nothing else of the queue object has changed and the
    display refresh has been called with the rest; [Dequeue] returns
    [user_state] when that refresh is fulfilled, and fails, with the head
    removed all the same, when it is rejected. *)
Theorem Dequeue_empty_or_head (q : HelpQueue) (reg : Registry) :
  (queue q = [] →
     Dequeue (mkWorld q reg)
     = (Thrown (new_UserError "Empty queue"), mkWorld q reg, [])) ∧
  (∀ user_state rest reg',
     queue q = user_state :: rest →
     TryRemoveFromQueue user_state (name q) reg = inr reg' →
     let q' := set_queue rest q in
     let r := Dequeue (mkWorld q reg) in
     world_after r = mkWorld q' reg' ∧
     trace_of r
     = [EvTryRemoveFromQueue user_state (name q); EvOnQueueUpdate q' (queue q')] ∧
     outcome_of r
     = (if rejects (EvOnQueueUpdate q' (queue q')) then Failed
        else Returned user_state) ∧
     members q = member user_state :: members q' ∧
     helpers q' = helpers q ∧ notif_queue q' = notif_queue q).
Proof.
  split.
  - intros Hq. by rewrite Dequeue_run, Hq.
  - intros user_state rest reg' Hq Hreg q' r. subst r.
    rewrite Dequeue_run, Hq, Hreg.
    unfold world_after, trace_of, outcome_of, fulfilled. simpl.
    split; [done|]. split; [done|]. split; [by destruct (rejects _)|].
    unfold members. by rewrite Hq.
Qed.

(** C7.  In a state where [member] is a helper already, [AddHelper(member,
    m)] returns, for both values of [m], with the queue object and the
    registry unchanged; the only effect is the warning: no message is
    sent and the display is not refreshed. *)
Theorem AddHelper_idempotent (q : HelpQueue) (reg : Registry) (m : GuildMember)
    (mute_notifs : bool) :
  m ∈ helpers q →
  AddHelper m mute_notifs (mkWorld q reg)
  = (Returned (), mkWorld q reg,
     [EvWarn ("Queue " +:+ name q +:+ " already has helper " +:+ username m
              +:+ ". Ignoring call to AddHelper")]).
Proof. apply AddHelper_already. Qed.

(** C9, as amended.  [Enqueue] has no condition on [helpers]: in every
    state of the queue, open or closed, the first thing it does is the
    registry call [TryAddToQueue].  If that call throws, [Enqueue] throws
    the same error and nothing has changed.  If it returns, the registry
    is the one the call left and [member] is appended to the members,
    whatever happens next.  On a closed queue nothing is sent and the
    display refresh is the only call awaited.  [Enqueue] returns when the
    platform rejects none of the calls it made, and only then: the
    refresh is then the last thing it did and none of the calls after the
    registry call was rejected; it fails, after the append, when one is
    rejected.
    What depends on the queue being open is the join button handed to the
    display: it is disabled exactly while the queue is closed. *)
Theorem Enqueue_no_open_precondition (q : HelpQueue) (reg : Registry)
    (m : GuildMember) :
  let r := Enqueue m (mkWorld q reg) in
  let q' := set_queue (queue q ++ [GetMemberState m]) q in
  head (trace_of r) = Some (EvTryAddToQueue (GetMemberState m) (name q)) ∧
  (∀ e, TryAddToQueue (GetMemberState m) (name q) reg = inl e →
     r = (Thrown e, mkWorld q reg, [EvTryAddToQueue (GetMemberState m) (name q)])) ∧
  (∀ reg', TryAddToQueue (GetMemberState m) (name q) reg = inr reg' →
     (world_after r = mkWorld q' reg' ∧ members q' = members q ++ [m]) ∧
     (is_open q = false →
        trace_of r = [EvTryAddToQueue (GetMemberState m) (name q);
                      EvOnQueueUpdate q' (queue q')] ∧
        outcome_of r
        = (if rejects (EvOnQueueUpdate q' (queue q')) then Failed else Returned ())) ∧
     ((∀ e, e ∈ trace_of r → rejects e = false) → outcome_of r = Returned ()) ∧
     (outcome_of r = Returned () →
        last (trace_of r) = Some (EvOnQueueUpdate q' (queue q')) ∧
        fulfilled (tail (trace_of r)) = true)) ∧
  (customId <$> joinLeaveButtons q' = ["join " +:+ name q; "leave " +:+ name q] ∧
   disabled <$> joinLeaveButtons q' = [negb (is_open q); negb (is_open q)]).
Proof.
  intros r q0. subst r q0. rewrite Enqueue_run. cbv zeta.
  set (q' := set_queue (queue q ++ [GetMemberState m]) q).
  set (heads_up := if bool_decide (queue q = []) then _ else _).
  split; [by destruct (TryAddToQueue _ _ _)|].
  split; [by intros e ->|]. split; [|done].
  intros reg' ->.
  unfold outcome_of, world_after, trace_of. cbn [fst snd].
  split; [split; [done|]|].
  { unfold members. simpl. by rewrite fmap_app. }
  assert (Hone : awaited [EvOnQueueUpdate q' (queue q')]
                 = if rejects (EvOnQueueUpdate q' (queue q')) then Failed
                   else Returned ()).
  { unfold awaited, fulfilled. simpl. by destruct (rejects _). }
  split; [|split].
  - intros Hclosed.
    assert (Hh : helpers q = ∅).
    { destruct (decide (helpers q = ∅)) as [|Hne]; [done|].
      apply is_open_true_iff in Hne. congruence. }
    assert (Hnone : heads_up = []).
    { subst heads_up. rewrite Hh, elements_empty. by case_bool_decide. }
    rewrite Hnone. change (fulfilled []) with true. cbn [app]. by rewrite Hone.
  - intros Hall.
    assert (Hup : fulfilled heads_up = true).
    { apply forallb_forall. intros e He. rewrite Hall; [done|].
      right. apply elem_of_app. left. by apply list_elem_of_In. }
    rewrite Hup in *. rewrite Hone, Hall; [done|].
    right. apply elem_of_app. right. by left.
  - destruct (fulfilled heads_up) eqn:Hup; [|done]. rewrite Hone.
    destruct (rejects (EvOnQueueUpdate q' (queue q'))) eqn:Hrefresh; [done|].
    intros _. split; [rewrite app_comm_cons; apply last_snoc|].
    cbn [tail]. unfold fulfilled in *. rewrite forallb_app, Hup.
    cbn [forallb]. by rewrite Hrefresh.
Qed.

(** C10.  [Remove] never changes [helpers] or [notif_queue].  For a
    member that is not waiting, the members stay the same sequence, the
    registry method [TryRemoveFromQueue] is still called for the member's
    state, first of all, and once that call has returned the display
    refresh is still called, with the queue as it was. *)
Theorem Remove_absent_member (q : HelpQueue) (reg : Registry) (m : GuildMember) :
  let r := Remove m (mkWorld q reg) in
  let q' := this_queue (world_after r) in
  helpers q' = helpers q ∧
  notif_queue q' = notif_queue q ∧
  (m ∉ members q →
     members q' = members q ∧
     head (trace_of r) = Some (EvTryRemoveFromQueue (GetMemberState m) (name q)) ∧
     ∀ reg', TryRemoveFromQueue (GetMemberState m) (name q) reg = inr reg' →
       world_after r = mkWorld q reg' ∧
       trace_of r = [EvTryRemoveFromQueue (GetMemberState m) (name q);
                     EvOnQueueUpdate q (queue q)]).
Proof.
  intros r q'. subst q' r. rewrite Remove_run. simpl.
  destruct (TryRemoveFromQueue _ _ _) as [e|reg1] eqn:Hreg;
    unfold world_after, trace_of; simpl.
  - by repeat split.
  - repeat split; try done.
    + rewrite members_set_queue, filter_absent; [done|].
      by rewrite <- elem_of_members.
    + injection H0 as <-. rewrite filter_absent by (by rewrite <- elem_of_members).
      by rewrite set_queue_same.
    + injection H0 as <-. rewrite filter_absent by (by rewrite <- elem_of_members).
      by rewrite set_queue_same.
Qed.

End queue_claims.

(** * Who is waiting, and in which order *)

Section queue_order.
Context `{MSM : MemberStateManager} `{PF : Platform}.

Lemma run_calls_snoc (cs : list Call) (c : Call) (w : World) :
  run_calls (cs ++ [c]) w = perform c (run_calls cs w).
Proof. unfold run_calls. by rewrite foldl_snoc. Qed.

Lemma state_after_all (cs : list QueueCall) (w0 : World) :
  state_after cs w0 (length cs) = run_calls (call_of <$> cs) w0.
Proof. unfold state_after. by rewrite take_ge. Qed.

Lemma state_after_snoc_le (cs : list QueueCall) c w0 t :
  t ≤ length cs → state_after (cs ++ [c]) w0 t = state_after cs w0 t.
Proof. intros Ht. unfold state_after. by rewrite take_app_le. Qed.

Lemma state_after_snoc_last (cs : list QueueCall) c w0 :
  state_after (cs ++ [c]) w0 (S (length cs))
  = perform (call_of c) (run_calls (call_of <$> cs) w0).
Proof.
  unfold state_after. rewrite take_ge by (rewrite length_app; simpl; lia).
  rewrite fmap_app. apply run_calls_snoc.
Qed.

(** One call either lets a member who was not waiting join at the back,
    or removes members without reordering the others; the agreement with
    the registry is kept. *)
Lemma perform_queue_call occupies (c : QueueCall) (w : World) :
  tracks_occupancy occupies →
  queue_recorded occupies w →
  let w' := perform (call_of c) w in
  queue_recorded occupies w' ∧
  ((∃ m, c = DoEnqueue m ∧ (m ∉ members (this_queue w)) ∧
         members (this_queue w') = members (this_queue w) ++ [m])
   ∨ members (this_queue w') `sublist_of` members (this_queue w)).
Proof.
  intros Hreg [Hnd Hocc]. destruct w as [q reg]. simpl in Hnd, Hocc.
  destruct c as [m|m|]; simpl; unfold world_after.
  - rewrite Enqueue_run. simpl.
    destruct (TryAddToQueue _ _ _) as [e|reg'] eqn:Hadd; simpl.
    { split; [by split|]. by right. }
    assert (Hfresh : GetMemberState m ∉ queue q).
    { intros Hin. apply (add_needs_vacancy _ Hreg _ _ _ _ Hadd). by apply Hocc. }
    split; [split; simpl|left].
    + apply NoDup_app. split; [done|]. split; [|apply NoDup_singleton].
      intros s Hs ->%list_elem_of_singleton. done.
    + intros s [Hs| ->%list_elem_of_singleton]%elem_of_app.
      * apply (add_keeps_others _ Hreg _ _ _ _ _ _ Hadd); [|by apply Hocc].
        intros ->. done.
      * apply (add_records _ Hreg _ _ _ _ Hadd).
    + exists m. split; [done|]. split; [by rewrite elem_of_members|].
      unfold members. simpl. by rewrite fmap_app.
  - rewrite Remove_run. simpl.
    destruct (TryRemoveFromQueue _ _ _) as [e|reg'] eqn:Hrem; simpl.
    { split; [by split|]. by right. }
    split; [split; simpl|right].
    + by apply NoDup_filter.
    + intros s [Hne Hs]%list_elem_of_filter.
      apply (remove_keeps_others _ Hreg _ _ _ _ _ _ Hrem); [done|by apply Hocc].
    + unfold members. simpl. apply fmap_sublist, sublist_filter.
  - rewrite Dequeue_run.
    destruct (queue q) as [|user_state rest] eqn:Hq; simpl.
    { split; [split; simpl; by rewrite Hq|by right]. }
    apply NoDup_cons in Hnd as [Hhead Hrest].
    assert (Hsub : members (set_queue rest q) `sublist_of` members q).
    { unfold members. rewrite Hq. simpl. apply sublist_cons. done. }
    destruct (TryRemoveFromQueue _ _ _) as [e|reg'] eqn:Hrem; simpl.
    + split; [split; simpl|by right]; [done|].
      intros s Hs. apply Hocc. by right.
    + split; [split; simpl|by right]; [done|].
      intros s Hs. apply (remove_keeps_others _ Hreg _ _ _ _ _ _ Hrem).
      * intros ->. done.
      * apply Hocc. by right.
Qed.

Section one_more_call.
Variables (cs : list QueueCall) (c : QueueCall) (w0 : World).

#[local] Abbreviation before :=
  (members (this_queue (run_calls (call_of <$> cs) w0))).
#[local] Abbreviation after :=
  (members (this_queue (perform (call_of c) (run_calls (call_of <$> cs) w0)))).

Lemma waiting_after_snoc_le t :
  t ≤ length cs → waiting_after (cs ++ [c]) w0 t = waiting_after cs w0 t.
Proof. intros Ht. unfold waiting_after. by rewrite state_after_snoc_le. Qed.

Lemma waiting_after_all : waiting_after cs w0 (length cs) = before.
Proof. unfold waiting_after. by rewrite state_after_all. Qed.

Lemma waiting_after_snoc_last : waiting_after (cs ++ [c]) w0 (S (length cs)) = after.
Proof. unfold waiting_after. by rewrite state_after_snoc_last. Qed.

Lemma waiting_since_snoc_inv m t :
  waiting_since (cs ++ [c]) w0 m t →
  m ∈ after ∧
  ((t < length cs ∧ waiting_since cs w0 m t ∧ m ∈ before)
   ∨ (t = length cs ∧ c = DoEnqueue m ∧ m ∉ before)).
Proof.
  intros (Hcall & Hnot & Hlater).
  assert (Hlen : length (cs ++ [c]) = S (length cs))
    by (rewrite length_app; simpl; lia).
  assert (Ht : t < S (length cs)).
  { rewrite <- Hlen. by eapply lookup_lt_Some. }
  split.
  { rewrite <- waiting_after_snoc_last. apply Hlater; lia. }
  destruct (decide (t = length cs)) as [->|Hne].
  - right. split; [done|].
    rewrite list_lookup_middle in Hcall by done.
    split; [congruence|].
    by rewrite <- waiting_after_all, <- (waiting_after_snoc_le (length cs)).
  - left. split; [lia|]. split.
    + split; [|split].
      * by rewrite lookup_app_l in Hcall by lia.
      * rewrite <- (waiting_after_snoc_le t) by lia. done.
      * intros t' Hlt Hle. rewrite <- (waiting_after_snoc_le t') by lia.
        apply Hlater; lia.
    + rewrite <- waiting_after_all, <- (waiting_after_snoc_le (length cs)) by lia.
      apply Hlater; lia.
Qed.

Lemma waiting_since_snoc_keep m t :
  waiting_since cs w0 m t → m ∈ after → waiting_since (cs ++ [c]) w0 m t.
Proof.
  intros (Hcall & Hnot & Hlater) Hafter.
  assert (Ht : t < length cs) by (by eapply lookup_lt_Some).
  split; [|split].
  - by rewrite lookup_app_l by lia.
  - by rewrite waiting_after_snoc_le by lia.
  - intros t' Hlt Hle. rewrite length_app in Hle. simpl in Hle.
    destruct (decide (t' = S (length cs))) as [->|Hne].
    + by rewrite waiting_after_snoc_last.
    + rewrite waiting_after_snoc_le by lia. apply Hlater; lia.
Qed.

Lemma waiting_since_snoc_new m :
  c = DoEnqueue m → m ∉ before → m ∈ after →
  waiting_since (cs ++ [c]) w0 m (length cs).
Proof.
  intros Hc Hbefore Hafter. split; [|split].
  - rewrite Hc. by apply list_lookup_middle.
  - by rewrite waiting_after_snoc_le, waiting_after_all by lia.
  - intros t' Hlt Hle. rewrite length_app in Hle. simpl in Hle.
    assert (t' = S (length cs)) as -> by lia.
    by rewrite waiting_after_snoc_last.
Qed.
End one_more_call.

Lemma ahead_sublist {A} (l : list A) (i j : nat) (x y : A) :
  i < j → l !! i = Some x → l !! j = Some y → [x; y] `sublist_of` l.
Proof.
  intros Hij Hx Hy.
  rewrite <- (take_drop_middle l j y Hy).
  apply (sublist_app [x] (take j l) [y] (y :: drop (S j) l)).
  - apply singleton_sublist_l, elem_of_take. by exists i.
  - apply sublist_skip, sublist_nil_l.
Qed.

Lemma sublist_pair_snoc {A} (l : list A) (x y z : A) :
  [x; y] `sublist_of` l ++ [z] → [x; y] `sublist_of` l ∨ (x ∈ l ∧ y = z).
Proof.
  intros (l1 & l2 & Heq & H1 & H2)%sublist_app_r.
  apply sublist_cons_r in H2 as [H2|(l2' & -> & H2)];
    apply sublist_nil_r in H2; subst.
  - left. rewrite app_nil_r in Heq. by subst.
  - right. destruct l1 as [|a [|b l1]]; simpl in Heq.
    + congruence.
    + injection Heq as -> ->. split; [|done]. by apply singleton_sublist_l.
    + injection Heq as _ _ Hnil. by destruct l1.
Qed.

(** The invariant of a run that starts with nobody waiting. *)
Lemma waiting_invariant occupies (cs : list QueueCall) (w0 : World) :
  tracks_occupancy occupies →
  queue (this_queue w0) = [] →
  let w := run_calls (call_of <$> cs) w0 in
  queue_recorded occupies w ∧
  (∀ m, m ∈ members (this_queue w) → ∃ t, waiting_since cs w0 m t) ∧
  (∀ x y tx ty,
     [x; y] `sublist_of` members (this_queue w) →
     waiting_since cs w0 x tx → waiting_since cs w0 y ty → tx < ty).
Proof.
  intros Hreg Hempty. induction cs as [|c cs IH] using rev_ind; simpl.
  - unfold queue_recorded, members. rewrite Hempty. simpl.
    split; [split; [apply NoDup_nil_2|by intros s ?%elem_of_nil]|].
    split; [by intros m ?%elem_of_nil|].
    by intros x y tx ty ?%sublist_nil_r.
  - destruct IH as (Hrec & Hex & Hord).
    rewrite fmap_app. simpl. rewrite run_calls_snoc.
    destruct (perform_queue_call occupies c _ Hreg Hrec) as [Hrec' Hshape].
    split; [done|].
    assert (Hold : ∀ m t,
      waiting_since (cs ++ [c]) w0 m t →
      m ∈ members (this_queue (run_calls (call_of <$> cs) w0)) →
      t < length cs ∧ waiting_since cs w0 m t).
    { intros m t Hws Hin.
      apply waiting_since_snoc_inv in Hws as [_ [(?&?&?)|(?&?&?)]]; done. }
    destruct Hshape as [(m0 & -> & Hfresh & Hsnoc)|Hsub].
    + split.
      * intros m. rewrite Hsnoc. intros [Hin| ->%list_elem_of_singleton]%elem_of_app.
        -- destruct (Hex m Hin) as [t Ht]. exists t.
           apply waiting_since_snoc_keep; [done|].
           rewrite Hsnoc. apply elem_of_app. by left.
        -- exists (length cs). apply waiting_since_snoc_new; [done..|].
           rewrite Hsnoc. apply elem_of_app. right. by apply list_elem_of_singleton.
      * intros x y tx ty Hxy Hx Hy. rewrite Hsnoc in Hxy.
        apply sublist_pair_snoc in Hxy as [Hxy|[Hxin ->]].
        -- assert (Hxin : x ∈ members (this_queue (run_calls (call_of <$> cs) w0))).
           { eapply elem_of_sublist; [|exact Hxy]. by left. }
           assert (Hyin : y ∈ members (this_queue (run_calls (call_of <$> cs) w0))).
           { eapply elem_of_sublist; [|exact Hxy]. right. by left. }
           destruct (Hold _ _ Hx Hxin) as [_ Hx'].
           destruct (Hold _ _ Hy Hyin) as [_ Hy'].
           by eapply Hord.
        -- destruct (Hold _ _ Hx Hxin) as [Htx _].
           apply waiting_since_snoc_inv in Hy as [_ [(?&?&?)|(->&?&?)]]; [done|lia].
    + split.
      * intros m Hin. assert (Hin' := elem_of_sublist _ _ _ Hin Hsub).
        destruct (Hex m Hin') as [t Ht]. exists t.
        by apply waiting_since_snoc_keep.
      * intros x y tx ty Hxy Hx Hy.
        assert (Hxy' := PreOrder_Transitive _ _ _ Hxy Hsub).
        assert (Hxin : x ∈ members (this_queue (run_calls (call_of <$> cs) w0))).
        { eapply elem_of_sublist; [|exact Hxy']. by left. }
        assert (Hyin : y ∈ members (this_queue (run_calls (call_of <$> cs) w0))).
        { eapply elem_of_sublist; [|exact Hxy']. right. by left. }
        destruct (Hold _ _ Hx Hxin) as [_ Hx'].
        destruct (Hold _ _ Hy Hyin) as [_ Hy'].
        by eapply Hord.
Qed.

(** C1.  With a registry that enforces that a member is in a queue at
    most once, after every sequence of [Enqueue], [Remove] and [Dequeue]
    calls on a new queue: no member is waiting twice; every member waiting
    joined with one of the [Enqueue] calls of the sequence and has been
    waiting since; and of two members waiting, the one ahead joined
    first. *)
Theorem members_unique_and_fifo (n : string) (reg0 : Registry) (cs : list QueueCall) :
  registry_enforces_single_queue →
  let w0 := mkWorld (new_HelpQueue n) reg0 in
  let waiting := members (this_queue (run_calls (call_of <$> cs) w0)) in
  NoDup waiting ∧
  (∀ m, m ∈ waiting → ∃ t, waiting_since cs w0 m t) ∧
  (∀ i j x y tx ty,
     i < j → waiting !! i = Some x → waiting !! j = Some y →
     waiting_since cs w0 x tx → waiting_since cs w0 y ty → tx < ty).
Proof.
  intros [occupies Hreg] w0 waiting.
  destruct (waiting_invariant occupies cs w0 Hreg eq_refl) as ([Hnd _] & Hex & Hord).
  split; [|split].
  - apply (NoDup_fmap_2_strong member); [|done].
    by intros [x] [y] _ _ [= ->].
  - exact Hex.
  - intros i j x y tx ty Hij Hx Hy Hwx Hwy.
    eapply Hord; [|done..]. by eapply ahead_sublist.
Qed.

End queue_order.

(** * The scenarios, on the stand-in registry *)

Section scenarios.
(** Where a scenario names no platform, every call is fulfilled. *)
#[local] Existing Instance reliable_platform.

Lemma single_queue_registry_tracks :
  tracks_occupancy (MSM := single_queue_registry)
    (λ (r : gmap GuildMember QueueRef) s q, r !! member s = Some q).
Proof.
  split; simpl.
  - intros s q r r' Hadd Hocc. rewrite Hocc in Hadd. done.
  - intros s q r r' Hadd. destruct (r !! member s); simplify_eq.
    apply lookup_insert_eq.
  - intros s q r r' s' q' Hadd Hne Hocc. destruct (r !! member s); simplify_eq.
    rewrite lookup_insert_ne; [done|].
    intros Heq. apply Hne. destruct s, s'. simpl in Heq. by subst.
  - intros s q r r' s' q' Hrem Hne Hocc. case_bool_decide; simplify_eq; [|done].
    rewrite lookup_delete_ne; [done|].
    intros Heq. apply Hne. destruct s, s'. simpl in Heq. by subst.
Qed.

Lemma single_queue_registry_enforces :
  registry_enforces_single_queue (MSM := single_queue_registry).
Proof. eexists. apply single_queue_registry_tracks. Qed.

Lemma single_queue_registry_remove_recorded s q (r : gmap GuildMember QueueRef) :
  r !! member s = Some q →
  TryRemoveFromQueue (MemberStateManager := single_queue_registry) s q r
  = inr (delete (member s) r).
Proof. intros Hr. simpl. by rewrite bool_decide_eq_true_2. Qed.

Lemma single_queue_registry_remove_absent s q (r : gmap GuildMember QueueRef) :
  r !! member s = None →
  TryRemoveFromQueue (MemberStateManager := single_queue_registry) s q r = inr r.
Proof. intros Hr. simpl. rewrite Hr. by case_bool_decide. Qed.

Lemma single_queue_registry_add_taken s q q0 (r : gmap GuildMember QueueRef) :
  r !! member s = Some q0 →
  TryAddToQueue (MemberStateManager := single_queue_registry) s q r
  = inl (new_UserError "Already in a queue").
Proof. intros Hr. simpl. by rewrite Hr. Qed.

Lemma single_queue_registry_add_free s q (r : gmap GuildMember QueueRef) :
  r !! member s = None →
  TryAddToQueue (MemberStateManager := single_queue_registry) s q r
  = inr (<[member s := q]> r).
Proof. intros Hr. simpl. by rewrite Hr. Qed.

Lemma strict_registry_remove_absent s q (r : gmap GuildMember QueueRef) :
  r !! member s = None →
  TryRemoveFromQueue (MemberStateManager := strict_registry) s q r
  = inl (new_UserError "Not in the queue").
Proof. intros Hr. simpl. rewrite Hr. by case_bool_decide. Qed.

Example scenario_run :
  members (this_queue (run_calls (MSM := single_queue_registry)
    (call_of <$> [DoEnqueue alice; DoEnqueue bob; DoEnqueue alice; DoDequeue; DoEnqueue alice])
    (mkWorld (new_HelpQueue "algo-help") ∅))) = [bob; alice].
Proof. vm_compute. reflexivity. Qed.

(** Five calls on a new queue: alice, bob, alice again (refused), the head
    is dequeued, alice joins again. *)
Lemma members_unique_and_fifo_witness :
  registry_enforces_single_queue (MSM := single_queue_registry) ∧
  let cs := [DoEnqueue alice; DoEnqueue bob; DoEnqueue alice; DoDequeue; DoEnqueue alice] in
  let w0 := mkWorld (MSM := single_queue_registry) (new_HelpQueue "algo-help") ∅ in
  let waiting := members (this_queue (run_calls (call_of <$> cs) w0)) in
  waiting = [bob; alice] ∧
  NoDup waiting ∧
  (∀ m, m ∈ waiting → ∃ t, waiting_since cs w0 m t) ∧
  (∀ i j x y tx ty,
     i < j → waiting !! i = Some x → waiting !! j = Some y →
     waiting_since cs w0 x tx → waiting_since cs w0 y ty → tx < ty).
Proof.
  split; [exact single_queue_registry_enforces|].
  split; [vm_compute; reflexivity|].
  exact (members_unique_and_fifo (MSM := single_queue_registry) "algo-help" ∅
           [DoEnqueue alice; DoEnqueue bob; DoEnqueue alice; DoDequeue; DoEnqueue alice]
           single_queue_registry_enforces).
Defined.

(** C3, the claim as stated fails: alice subscribed to a closed queue, ta1
    starts helping with [mute_notifs] true; the queue opens and alice is
    still in [notif_queue]. *)
Lemma muted_opening_keeps_subscribers :
  let q := set_notif_queue {[alice]} (new_HelpQueue "algo-help") in
  let q' := this_queue (world_after
              (AddHelper (MSM := single_queue_registry) ta1 true (mkWorld q ∅))) in
  (helpers q = ∅ ∧ is_open q = false) ∧
  (helpers q' = {[ta1]} ∧ is_open q' = true) ∧
  notif_queue q' = {[alice]} ∧ notif_queue q' ≠ ∅.
Proof.
  intros q q'. subst q'.
  rewrite (AddHelper_first_muted (MSM := single_queue_registry)) by done.
  simpl. repeat split.
  intros Heq. assert (Hin : alice ∈ (∅ : gset GuildMember)).
  { rewrite <- Heq. by apply elem_of_singleton. }
  by apply not_elem_of_empty in Hin.
Qed.

Lemma AddHelper_opening_drains_unless_muted_witness :
  let q := set_notif_queue {[alice]} (new_HelpQueue "algo-help") in
  helpers q = ∅ ∧
  notif_queue (this_queue (world_after
    (AddHelper (MSM := single_queue_registry) ta1 false (mkWorld q ∅)))) = ∅.
Proof.
  split; [reflexivity|].
  exact (proj2 (proj2 (proj1
    (AddHelper_opening_drains_unless_muted (MSM := single_queue_registry)
       (set_notif_queue {[alice]} (new_HelpQueue "algo-help")) ∅ ta1 eq_refl)))).
Defined.

(** C4, the claim as stated fails: in the scenario of the "algo-help"
    queue, alice is sent one message, and its text is not the text of the
    claim. *)
Lemma opening_message_text_differs :
  let q := set_notif_queue {[alice]} (new_HelpQueue "algo-help") in
  let r := AddHelper (MSM := single_queue_registry) ta1 false (mkWorld q ∅) in
  (helpers q = ∅ ∧ alice ∈ notif_queue q) ∧
  sent_to alice (trace_of r) = ["Hey! The `algo-help` queue is now open!"] ∧
  sent_to alice (trace_of r)
    ≠ ["The " +:+ dquote +:+ "algo-help" +:+ dquote +:+ " queue is now open!"].
Proof.
  intros q r. subst r.
  rewrite (AddHelper_first_loud (MSM := single_queue_registry)) by done.
  unfold trace_of. simpl. rewrite elements_singleton.
  split; [split; [done|by apply elem_of_singleton]|].
  split; [reflexivity|]. vm_compute. discriminate.
Qed.

Lemma AddHelper_opening_notifies_witness :
  let q := set_notif_queue {[alice]} (new_HelpQueue "algo-help") in
  let r := AddHelper (MSM := single_queue_registry) ta1 false (mkWorld q ∅) in
  helpers q = ∅ ∧
  notif_queue (this_queue (world_after r)) = ∅ ∧
  sent_to alice (trace_of r) =
    if bool_decide (alice ∈ notif_queue q)
    then ["Hey! The `" +:+ name q +:+ "` queue is now open!"] else [].
Proof.
  split; [reflexivity|].
  pose proof (AddHelper_opening_notifies (MSM := single_queue_registry)
    (set_notif_queue {[alice]} (new_HelpQueue "algo-help")) ∅ ta1 eq_refl)
    as (Hdrained & Hsent).
  split; [exact Hdrained|exact (Hsent alice)].
Defined.

Lemma Dequeue_empty_or_head_witness :
  let q0 := new_HelpQueue "algo-help" in
  let q2 := set_queue [GetMemberState alice; GetMemberState bob] q0 in
  let reg2 : gmap GuildMember QueueRef := {[alice := "algo-help"; bob := "algo-help"]} in
  Dequeue (MSM := single_queue_registry) (mkWorld q0 ∅)
  = (Thrown (new_UserError "Empty queue"), mkWorld q0 ∅, []) ∧
  let r := Dequeue (MSM := single_queue_registry)
             (mkWorld (MSM := single_queue_registry) q2 reg2) in
  world_after r
  = mkWorld (MSM := single_queue_registry) (set_queue [GetMemberState bob] q2)
      (delete alice reg2) ∧
  trace_of r
  = [EvTryRemoveFromQueue (GetMemberState alice) "algo-help";
     EvOnQueueUpdate (set_queue [GetMemberState bob] q2) [GetMemberState bob]] ∧
  outcome_of r = Returned (GetMemberState alice).
Proof.
  intros q0 q2 reg2. split.
  - exact (proj1 (Dequeue_empty_or_head (MSM := single_queue_registry) q0 ∅) eq_refl).
  - assert (Hrem : TryRemoveFromQueue (MemberStateManager := single_queue_registry)
                     (GetMemberState alice) (name q2) reg2 = inr (delete alice reg2)).
    { apply single_queue_registry_remove_recorded, lookup_insert_eq. }
    pose proof (proj2 (Dequeue_empty_or_head (MSM := single_queue_registry) q2 reg2)
                  (GetMemberState alice) [GetMemberState bob] (delete alice reg2)
                  eq_refl Hrem) as (Hworld & Htrace & Hout & _).
    split; [exact Hworld|]. split; [exact Htrace|exact Hout].
Defined.

(** C5, the claim as stated fails: alice and bob are waiting and the
    refresh of the display is rejected.  [Dequeue] takes alice out of the
    queue and out of the registry, calls the refresh, and fails: it does
    not return the head. *)
Lemma Dequeue_fails_after_shift :
  let q := set_queue [GetMemberState alice; GetMemberState bob] (new_HelpQueue "algo-help") in
  let reg : gmap GuildMember QueueRef := {[alice := "algo-help"; bob := "algo-help"]} in
  let r := Dequeue (MSM := single_queue_registry) (PF := stale_display)
             (mkWorld (MSM := single_queue_registry) q reg) in
  queue q ≠ [] ∧
  outcome_of r = Failed ∧
  outcome_of r ≠ Returned (GetMemberState alice) ∧
  queue (this_queue (world_after r)) = [GetMemberState bob] ∧
  trace_of r
  = [EvTryRemoveFromQueue (GetMemberState alice) "algo-help";
     EvOnQueueUpdate (set_queue [GetMemberState bob] q) [GetMemberState bob]].
Proof.
  intros q reg r. subst r.
  rewrite (Dequeue_run (MSM := single_queue_registry) (PF := stale_display)).
  cbn [queue q set_queue new_HelpQueue name]. cbv zeta.
  rewrite (single_queue_registry_remove_recorded (GetMemberState alice) "algo-help" reg)
    by apply lookup_insert_eq.
  unfold outcome_of, world_after, trace_of. cbn.
  repeat split; discriminate.
Qed.

Lemma AddHelper_idempotent_witness :
  let q := set_helpers {[ta1]} (new_HelpQueue "algo-help") in
  ta1 ∈ helpers q ∧
  ∀ mute_notifs,
    AddHelper (MSM := single_queue_registry) ta1 mute_notifs (mkWorld q ∅)
    = (Returned (), mkWorld q ∅,
       [EvWarn "Queue algo-help already has helper ta1. Ignoring call to AddHelper"]).
Proof.
  assert (Hhelps : ta1 ∈ ({[ta1]} : gset GuildMember)).
  { apply elem_of_singleton. reflexivity. }
  split; [exact Hhelps|].
  intros mute_notifs.
  exact (AddHelper_idempotent (MSM := single_queue_registry)
           (set_helpers {[ta1]} (new_HelpQueue "algo-help")) ∅ ta1 mute_notifs Hhelps).
Defined.

(** A closed queue takes bob; alice, who waits in another queue, is
    refused. *)
Lemma Enqueue_no_open_precondition_witness :
  let q := new_HelpQueue "algo-help" in
  let reg' : gmap GuildMember QueueRef := {[bob := "algo-help"]} in
  let taken : gmap GuildMember QueueRef := {[alice := "data-help"]} in
  is_open q = false ∧
  (let r := Enqueue (MSM := single_queue_registry) bob (mkWorld q ∅) in
   world_after r
   = mkWorld (MSM := single_queue_registry) (set_queue [GetMemberState bob] q) reg' ∧
   outcome_of r = Returned () ∧
   last (trace_of r)
   = Some (EvOnQueueUpdate (set_queue [GetMemberState bob] q) [GetMemberState bob])) ∧
  Enqueue (MSM := single_queue_registry) alice
    (mkWorld (MSM := single_queue_registry) q taken)
  = (Thrown (new_UserError "Already in a queue"),
     mkWorld (MSM := single_queue_registry) q taken,
     [EvTryAddToQueue (GetMemberState alice) "algo-help"]).
Proof.
  intros q reg' taken.
  split; [reflexivity|]. split.
  - pose proof (Enqueue_no_open_precondition (MSM := single_queue_registry) q ∅ bob)
      as (_ & _ & Hjoined & _).
    destruct (Hjoined reg' eq_refl) as ((Hworld & _) & _ & Hreturns & Hlast).
    split; [exact Hworld|].
    assert (Hout := Hreturns (λ e _, eq_refl)).
    split; [exact Hout|exact (proj1 (Hlast Hout))].
  - refine (proj1 (proj2 (Enqueue_no_open_precondition (MSM := single_queue_registry)
                            q taken alice)) (new_UserError "Already in a queue") _).
    apply (single_queue_registry_add_taken _ _ "data-help"), lookup_singleton_eq.
Defined.

(** C9, the claim as stated fails: bob joins a closed queue and the
    refresh of the display is rejected.  The registry has recorded bob and
    bob is waiting, but [Enqueue] fails: the call does not succeed. *)
Lemma Enqueue_fails_after_append :
  let q := new_HelpQueue "algo-help" in
  let r := Enqueue (MSM := single_queue_registry) (PF := stale_display) bob
             (mkWorld (MSM := single_queue_registry) q ∅) in
  is_open q = false ∧
  TryAddToQueue (MemberStateManager := single_queue_registry)
    (GetMemberState bob) (name q) ∅ = inr {[bob := "algo-help"]} ∧
  outcome_of r = Failed ∧
  outcome_of r ≠ Returned () ∧
  members (this_queue (world_after r)) = [bob].
Proof.
  intros q r. subst r.
  rewrite (Enqueue_run (MSM := single_queue_registry) (PF := stale_display)).
  cbv zeta. cbn [name q new_HelpQueue].
  change (TryAddToQueue (MemberStateManager := single_queue_registry)
            (GetMemberState bob) "algo-help" ∅)
    with (inr ({[bob := "algo-help"]} : gmap GuildMember QueueRef)
          : UserError + gmap GuildMember QueueRef).
  cbn [queue q new_HelpQueue helpers]. rewrite bool_decide_eq_true_2 by done.
  rewrite elements_empty.
  unfold outcome_of, world_after, trace_of. cbn.
  repeat split; discriminate.
Qed.

(** bob leaves a queue in which only alice waits. *)
Lemma Remove_absent_member_witness :
  let q := set_queue [GetMemberState alice] (new_HelpQueue "algo-help") in
  let reg : gmap GuildMember QueueRef := {[alice := "algo-help"]} in
  (bob ∉ members q) ∧
  let r := Remove (MSM := single_queue_registry) bob
             (mkWorld (MSM := single_queue_registry) q reg) in
  world_after r = mkWorld (MSM := single_queue_registry) q reg ∧
  trace_of r = [EvTryRemoveFromQueue (GetMemberState bob) "algo-help";
                EvOnQueueUpdate q [GetMemberState alice]].
Proof.
  intros q reg.
  assert (Habsent : bob ∉ members q).
  { intros Hin. apply list_elem_of_singleton in Hin. discriminate. }
  split; [exact Habsent|].
  refine (proj2 (proj2 (proj2 (proj2
            (Remove_absent_member (MSM := single_queue_registry) q reg bob)) Habsent))
            reg _).
  apply single_queue_registry_remove_absent.
  apply lookup_singleton_ne. discriminate.
Defined.

End scenarios.

(** * Properties of [HelpQueueDisplayManager] *)

Section display_facts.

Lemma settle_middle (w : DisplayWorld) (p rest : list (Request * Reaction))
    (r : Request) (k : Reaction) :
  pending w = p ++ (r, k) :: rest →
  settle (length p) w =
    match serve (client_user (manager w)) r (channel w) with
    | (c, Some resolved) =>
        let '(dm, calls) := react k (manager w) resolved in
        mkDisplayWorld dm c ((p ++ rest) ++ calls)
                       (history w ++ [Settled r] ++ (Issued ∘ fst <$> calls))
    | (c, None) =>
        mkDisplayWorld (manager w) c (p ++ rest) (history w ++ [Rejected r])
    end.
Proof.
  intros Hp. unfold settle. rewrite Hp, list_lookup_middle by done.
  by rewrite delete_middle.
Qed.

(** [EnsureQueueSafe()] and the settling of its fetch, with nothing in
    between. *)
Lemma EnsureQueueSafe_settled (w : DisplayWorld) :
  settle (length (pending w)) (EnsureQueueSafe w) =
    let '(dm, deletes) := reconcile (manager w) (pinned_messages (channel w)) in
    mkDisplayWorld dm (channel w)
      (pending w ++ ((λ r, (r, then_nothing)) <$> deletes))
      (history w ++ [Issued fetchPinned; Settled fetchPinned] ++ (Issued <$> deletes)).
Proof.
  rewrite (settle_middle _ (pending w) [] fetchPinned then_reconcile) by done.
  simpl. destruct (reconcile _ _) as [dm deletes].
  rewrite app_nil_r, <- app_assoc. simpl.
  by rewrite <- list_fmap_compose.
Qed.

Lemma filter_other_ids (id : MessageId) (msgs : list Message) :
  id ∉ message_id <$> msgs →
  filter (λ msg, message_id msg ≠ id) msgs = msgs.
Proof.
  induction msgs as [|msg msgs IH]; [done|].
  rewrite fmap_cons, not_elem_of_cons. intros [Hne Hnin].
  rewrite filter_cons_True by done. by rewrite IH.
Qed.

(** A pending [delete] settles: the message is gone whether it was there
    or not, and nothing else changes. *)
Lemma settle_delete (w : DisplayWorld) (p rest : list (Request * Reaction))
    (id : MessageId) :
  pending w = p ++ (message_delete id, then_nothing) :: rest →
  let w' := settle (length p) w in
  manager w' = manager w ∧
  pending w' = p ++ rest ∧
  channel_messages (channel w')
  = filter (λ msg, message_id msg ≠ id) (channel_messages (channel w)).
Proof.
  intros Hp. simpl. rewrite (settle_middle _ _ _ _ _ Hp). simpl.
  unfold has_message. case_bool_decide as Hin; simpl.
  - by rewrite app_nil_r.
  - by rewrite filter_other_ids.
Qed.

Lemma settle_deletes (ids : list MessageId) (w : DisplayWorld)
    (p : list (Request * Reaction)) :
  pending w = p ++ ((λ id, (message_delete id, then_nothing)) <$> ids) →
  let w' := settle_all (replicate (length ids) (length p)) w in
  manager w' = manager w ∧
  pending w' = p ∧
  channel_messages (channel w')
  = filter (λ msg, message_id msg ∉ ids) (channel_messages (channel w)).
Proof.
  revert w. induction ids as [|id ids IH]; intros w Hp; simpl.
  - rewrite app_nil_r in Hp. repeat split; [done|].
    induction (channel_messages (channel w)) as [|msg msgs IHm]; [done|].
    rewrite filter_cons_True by apply not_elem_of_nil. by rewrite <- IHm.
  - destruct (settle_delete w p _ id Hp) as (Hm & Hpend & Hch).
    destruct (IH _ Hpend) as (Hm' & Hpend' & Hch').
    unfold settle_all in *. simpl in *.
    rewrite Hm', Hpend', Hch', Hch, Hm. repeat split.
    rewrite list_filter_filter. apply list_filter_iff.
    intros msg. rewrite not_elem_of_cons. tauto.
Qed.

(** What is in the log stays in the log. *)
Lemma settle_history (i : nat) (w : DisplayWorld) :
  history w `prefix_of` history (settle i w).
Proof.
  unfold settle. destruct (pending w !! i) as [[r k]|]; [|done].
  destruct (serve _ _ _) as [c [resolved|]]; [destruct (react _ _ _)|];
    simpl; by apply prefix_app_r.
Qed.

Lemma settle_all_history (schedule : list nat) (w : DisplayWorld) :
  history w `prefix_of` history (settle_all schedule w).
Proof.
  revert w. induction schedule as [|i schedule IH]; intros w; [done|].
  unfold settle_all in *. simpl. etrans; [apply settle_history|apply IH].
Qed.

End display_facts.

Section display_claims.
Context `{TBL : AsciiTable}.

(** [OnQueueUpdate] of a manager that holds no message: when it reaches
    its [await], the fetch of [EnsureQueueSafe] and the [send] are both
    under way, in this order, and no callback has run. *)
Lemma OnQueueUpdate_without_message (q : HelpQueue) (queue_members : list MemberState)
    (w : DisplayWorld) :
  queue_message (manager w) = None →
  let options := mkMessageOptions (GetQueueText q queue_members)
                   [joinLeaveButtons q; notifButtons q] in
  OnQueueUpdate q queue_members w =
    mkDisplayWorld (manager w) (channel w)
      (pending w ++ [(fetchPinned, then_reconcile); (channel_send options, then_pin)])
      (history w ++ [Issued fetchPinned; Issued (channel_send options)]).
Proof.
  intros Hnone. unfold OnQueueUpdate, EnsureQueueSafe, issue. rewrite Hnone. simpl.
  by rewrite <- !app_assoc.
Qed.

(** Whatever the order in which the promises settle afterwards, the log
    has the [send] issued before anything the callbacks of
    [EnsureQueueSafe] do. *)
Lemma OnQueueUpdate_send_precedes_callbacks (q : HelpQueue)
    (queue_members : list MemberState) (w : DisplayWorld) (schedule : list nat) :
  queue_message (manager w) = None →
  let options := mkMessageOptions (GetQueueText q queue_members)
                   [joinLeaveButtons q; notifButtons q] in
  ∃ later,
    history (settle_all schedule (OnQueueUpdate q queue_members w))
    = history w ++ [Issued fetchPinned; Issued (channel_send options)] ++ later.
Proof.
  intros Hnone options.
  destruct (settle_all_history schedule (OnQueueUpdate q queue_members w))
    as [later Hlater].
  exists later. rewrite Hlater, OnQueueUpdate_without_message by done.
  simpl. by rewrite <- app_assoc.
Qed.

End display_claims.

(** C6, as amended.  [EnsureQueueSafe] fetches the pinned messages of the
    display channel and keeps those written by the bot.  With none found
    the manager forgets its message; with more than one found it forgets
    its message and calls [delete] on every one of them, after which none
    of them is in the channel; with exactly one found it changes nothing:
    the manager keeps what it held, and a message it did not hold is not
    taken over. *)
Theorem EnsureQueueSafe_reconciles (w : DisplayWorld) :
  let found := filter (λ msg, author msg = client_user (manager w))
                      (pinned_messages (channel w)) in
  let w' := settle (length (pending w)) (EnsureQueueSafe w) in
  channel w' = channel w ∧
  (length found = 0 →
     manager w' = set_queue_message None (manager w) ∧ pending w' = pending w) ∧
  (1 < length found →
     manager w' = set_queue_message None (manager w) ∧
     pending w' = pending w
       ++ ((λ msg, (message_delete (message_id msg), then_nothing)) <$> found) ∧
     let w'' := settle_all (replicate (length found) (length (pending w))) w' in
     manager w'' = manager w' ∧
     pending w'' = pending w ∧
     channel_messages (channel w'')
     = filter (λ msg, message_id msg ∉ message_id <$> found)
              (channel_messages (channel w))) ∧
  (length found = 1 → manager w' = manager w ∧ pending w' = pending w).
Proof.
  intros found w'. subst w'. rewrite EnsureQueueSafe_settled.
  unfold reconcile. fold found.
  case_bool_decide as Hmany; [|case_bool_decide as Hnone]; simpl.
  - split; [done|]. split; [lia|]. split; [|lia].
    intros _. split; [done|].
    rewrite <- list_fmap_compose. split; [done|].
    set (w1 := mkDisplayWorld _ _ _ _).
    destruct (settle_deletes (message_id <$> found) w1 (pending w)) as (Hm & Hp & Hc).
    { subst w1. simpl. by rewrite <- !list_fmap_compose. }
    rewrite length_fmap in Hm, Hp, Hc. done.
  - rewrite app_nil_r. split; [done|]. split; [done|]. split; lia.
  - rewrite app_nil_r. split; [done|]. split; [lia|]. split; [lia|done].
Qed.

(** A channel with two artifacts of the bot. *)
Lemma EnsureQueueSafe_reconciles_witness :
  let w := display_with [stale_artifact 7; stale_artifact 8] 9 in
  let found := filter (λ msg, author msg = client_user (manager w))
                      (pinned_messages (channel w)) in
  let w' := settle (length (pending w)) (EnsureQueueSafe w) in
  1 < length found ∧
  manager w' = set_queue_message None (manager w) ∧
  pending w' = pending w
    ++ ((λ msg, (message_delete (message_id msg), then_nothing)) <$> found).
Proof.
  intros w found w'.
  assert (Hmany : 1 < length found) by (vm_compute; lia).
  split; [exact Hmany|].
  destruct (proj1 (proj2 (proj2 (EnsureQueueSafe_reconciles w))) Hmany)
    as (Hmanager & Hpending & _).
  split; [exact Hmanager|exact Hpending].
Defined.

(** C6, the claim as stated fails: the channel holds one pinned message of
    the bot, the manager holds none; after [EnsureQueueSafe] the manager
    still holds none. *)
Lemma single_artifact_not_adopted :
  let w := display_with [stale_artifact 7] 8 in
  let found := filter (λ msg, author msg = client_user (manager w))
                      (pinned_messages (channel w)) in
  let w' := settle (length (pending w)) (EnsureQueueSafe w) in
  found = [stale_artifact 7] ∧
  queue_message (manager w) = None ∧
  queue_message (manager w') = None ∧
  queue_message (manager w') ≠ Some (message_id (stale_artifact 7)) ∧
  pending w' = [].
Proof. vm_compute. repeat split; discriminate. Qed.

(** C8, on the code: a manager that holds no message, in a channel where an
    earlier message of the bot is still pinned.  When [OnQueueUpdate]
    reaches its [await] the [send] has been issued and the callbacks of
    [EnsureQueueSafe] have not run.  If the [send] and the [pin] settle
    before the fetch, the fetch finds two messages of the bot: the fresh
    one is deleted together with the old one and the manager holds
    nothing. *)
Theorem OnQueueUpdate_sends_before_reconciling :
  let q := new_HelpQueue "algo-help" in
  let w0 := display_with [stale_artifact 7] 8 in
  let options := mkMessageOptions (GetQueueText (TBL := plain_table) q [])
                   [joinLeaveButtons q; notifButtons q] in
  let w1 := OnQueueUpdate (TBL := plain_table) q [] w0 in
  let w2 := settle_all [1; 1; 0] w1 in
  queue_message (manager w0) = None ∧
  history w1 = [Issued fetchPinned; Issued (channel_send options)] ∧
  pending w1 = [(fetchPinned, then_reconcile); (channel_send options, then_pin)] ∧
  history w2 = [Issued fetchPinned; Issued (channel_send options);
                Settled (channel_send options);
                Issued (message_pin 8); Settled (message_pin 8);
                Settled fetchPinned;
                Issued (message_delete 7); Issued (message_delete 8)] ∧
  queue_message (manager w2) = None ∧
  channel_messages (channel (settle_all [0; 0] w2)) = [].
Proof. vm_compute. repeat split. Qed.

(** The same call when the fetch settles first: it finds the one old
    message and leaves it, and the channel ends with two pinned messages
    of the bot. *)
Example OnQueueUpdate_fetch_first :
  let q := new_HelpQueue "algo-help" in
  let w0 := display_with [stale_artifact 7] 8 in
  let w2 := settle_all [0; 0; 0] (OnQueueUpdate (TBL := plain_table) q [] w0) in
  queue_message (manager w2) = Some 8 ∧
  message_id <$> pinned_messages (channel w2) = [7; 8] ∧
  author <$> pinned_messages (channel w2) = [bot; bot].
Proof. vm_compute. repeat split. Qed.

(** * More on [HelpQueue]: helpers, subscribers, refusals *)

Section queue_more_facts.
Context `{MSM : MemberStateManager} `{PF : Platform}.

#[local] Ltac unfold_task :=
  unfold mbind, mret, Task_bind, Task_ret, bind, ret, throw, this,
    registry_call, update_this, UpdateDisplay, await_all.

Lemma awaited_one (e : Event) :
  awaited [e] = if rejects e then Failed else Returned ().
Proof. unfold awaited, fulfilled. simpl. by destruct (rejects e). Qed.

Lemma awaited_not_thrown (calls : list Event) (e : UserError) :
  awaited calls ≠ Thrown e.
Proof. unfold awaited. by destruct (fulfilled calls). Qed.

Lemma Has_true_iff (m : GuildMember) (q : HelpQueue) :
  Has m q = true ↔ m ∈ members q.
Proof.
  unfold Has, members. induction (queue q) as [|s l IH]; simpl.
  - split; [done|]. by intros ?%elem_of_nil.
  - rewrite elem_of_cons. case_bool_decide as Hs.
    + split; [|done]. intros _. by left.
    + rewrite IH. split; [by right|]. intros [Heq|Hin]; [congruence|done].
Qed.

(** [AddHelper] for a member that is not a helper yet. *)
Lemma AddHelper_new q reg m mute_notifs :
  m ∉ helpers q →
  AddHelper m mute_notifs (mkWorld q reg) =
    let q1 := set_helpers ({[m]} ∪ helpers q) q in
    let notify := bool_decide (helpers q = ∅) && negb mute_notifs in
    let q2 := if notify then set_notif_queue ∅ q1 else q1 in
    (awaited [EvOnQueueUpdate q2 (queue q2)], mkWorld q2 reg,
     (if notify then
        (λ s, EvSend s ("Hey! The `" +:+ name q +:+ "` queue is now open!"))
          <$> elements (notif_queue q)
      else [])
     ++ [EvOnQueueUpdate q2 (queue q2)]).
Proof.
  intros Hnew. unfold AddHelper. unfold_task. simpl.
  rewrite bool_decide_eq_false_2 by done. simpl.
  assert (Hsize : size ({[m]} ∪ helpers q) = S (size (helpers q))).
  { rewrite size_union, size_singleton; [done|].
    intros x ->%elem_of_singleton. done. }
  rewrite (bool_decide_ext (size ({[m]} ∪ helpers q) = 1) (helpers q = ∅)).
  2:{ rewrite Hsize. split.
      - intros [= Hz]. apply size_empty_inv in Hz. by apply leibniz_equiv in Hz.
      - intros ->. by rewrite size_empty. }
  destruct (bool_decide (helpers q = ∅)), mute_notifs; cbn [andb negb]; try done.
  by rewrite NotifyUsers_run.
Qed.

Lemma sends_are_no_refresh (text : string) (l : list GuildMember) :
  filter (λ e, is_refresh e = true) ((λ s, EvSend s text) <$> l) = [].
Proof.
  induction l as [|x l IH]; [done|].
  rewrite fmap_cons, filter_cons_False; [done|]. simpl. discriminate.
Qed.

Lemma AddHelper_new_world q reg m mute_notifs :
  m ∉ helpers q →
  ∃ q1 tr,
    AddHelper m mute_notifs (mkWorld q reg)
    = (awaited [EvOnQueueUpdate q1 (queue q1)], mkWorld q1 reg, tr) ∧
    helpers q1 = {[m]} ∪ helpers q ∧ queue q1 = queue q ∧ name q1 = name q ∧
    length (filter (λ e, is_refresh e = true) tr) = 1 ∧
    (mute_notifs = true → notif_queue q1 = notif_queue q).
Proof.
  intros Hnew. rewrite AddHelper_new by done. cbv zeta.
  destruct (bool_decide (helpers q = ∅) && negb mute_notifs) eqn:Hnotify.
  - eexists _, _. split; [done|]. cbn [helpers queue name set_helpers set_notif_queue].
    repeat split.
    + rewrite filter_app, sends_are_no_refresh. done.
    + intros ->. by rewrite andb_false_r in Hnotify.
  - eexists _, _. split; [done|]. by repeat split.
Qed.

Lemma RemoveHelper_present q reg m :
  m ∈ helpers q →
  RemoveHelper m (mkWorld q reg) =
    let q' := set_helpers (helpers q ∖ {[m]}) q in
    (awaited [EvOnQueueUpdate q' (queue q')], mkWorld q' reg,
     [EvOnQueueUpdate q' (queue q')]).
Proof.
  intros Hin. unfold RemoveHelper. unfold_task. simpl.
  by rewrite bool_decide_eq_true_2.
Qed.

Lemma sent_to_nil s : sent_to s [] = [].
Proof. done. Qed.

Lemma sent_to_cons_other s e tr :
  (∀ recipient text, e ≠ EvSend recipient text) →
  sent_to s (e :: tr) = sent_to s tr.
Proof.
  intros He. unfold sent_to. simpl. destruct e; try done.
  by destruct (He recipient text).
Qed.

Lemma registry_call_run e (method : Registry → UserError + Registry) q reg :
  registry_call e method (mkWorld q reg) =
    match method reg with
    | inr r => (Returned (), mkWorld q r, [e])
    | inl err => (Thrown err, mkWorld q reg, [e])
    end.
Proof. done. Qed.

(** [forEach] over registry calls: the queue object is not touched, the
    calls are made in order up to the first that throws. *)
Lemma forEach_registry_calls (ev : MemberState → Event)
    (method : MemberState → Registry → UserError + Registry)
    (l : list MemberState) (q : HelpQueue) (reg : Registry) :
  ∃ o reg' tr,
    forEach (λ s, registry_call (ev s) (method s)) l (mkWorld q reg)
    = (o, mkWorld q reg', tr) ∧
    o ≠ Failed ∧
    tr `prefix_of` (ev <$> l) ∧
    (∀ u, o = Returned u → tr = ev <$> l) ∧
    ((∀ s r, ∃ r', method s r = inr r') → o = Returned ()).
Proof.
  revert reg. induction l as [|s l IH]; intros reg; simpl.
  - exists (Returned ()), reg, []. by repeat split.
  - unfold mbind, Task_bind, bind. rewrite registry_call_run.
    destruct (method s reg) as [e|reg1] eqn:Hcall.
    + exists (Thrown e), reg, [ev s]. repeat split.
      * done.
      * by apply (prefix_app_r [ev s] [ev s] (ev <$> l)).
      * done.
      * intros Hall. destruct (Hall s reg) as [r' Hr']. congruence.
    + destruct (IH reg1) as (o & reg' & tr & -> & Hnf & Hpre & Hall & Hret).
      exists o, reg', (ev s :: tr). repeat split.
      * done.
      * by apply prefix_cons.
      * intros u Ho. by rewrite (Hall u Ho).
      * done.
Qed.

(** [Clear]: the registry calls first; the queue is emptied and the
    display refreshed only if every one of them returned. *)
Lemma Clear_run q reg :
  ∃ o reg' tr,
    forEach (λ s, registry_call (EvTryRemoveFromQueue s (name q))
                                (TryRemoveFromQueue s (name q)))
            (queue q) (mkWorld q reg)
    = (o, mkWorld q reg', tr) ∧
    o ≠ Failed ∧
    tr `prefix_of` ((λ s, EvTryRemoveFromQueue s (name q)) <$> queue q) ∧
    (∀ u, o = Returned u → tr = (λ s, EvTryRemoveFromQueue s (name q)) <$> queue q) ∧
    ((∀ s r, ∃ r', TryRemoveFromQueue s (name q) r = inr r') → o = Returned ()) ∧
    Clear (mkWorld q reg) =
      match o with
      | Returned _ =>
          (awaited [EvOnQueueUpdate (set_queue [] q) []],
           mkWorld (set_queue [] q) reg',
           tr ++ [EvOnQueueUpdate (set_queue [] q) []])
      | Thrown e => (Thrown e, mkWorld q reg', tr)
      | Failed => (Failed, mkWorld q reg', tr)
      end.
Proof.
  destruct (forEach_registry_calls (λ s, EvTryRemoveFromQueue s (name q))
              (λ s, TryRemoveFromQueue s (name q)) (queue q) q reg)
    as (o & reg' & tr & Hrun & Hnf & Hpre & Hall & Hret).
  exists o, reg', tr. repeat split; try done.
  unfold Clear. unfold_task. simpl.
  change (forEach _ (queue q) {| this_queue := q; registry := reg |})
    with (forEach (λ s, registry_call (EvTryRemoveFromQueue s (name q))
                          (TryRemoveFromQueue s (name q)))
            (queue q) (mkWorld q reg)).
  rewrite Hrun. by destruct o.
Qed.

Lemma no_refresh_filter (tr : list Event) :
  Forall (λ e, is_refresh e = false) tr →
  filter (λ e, is_refresh e = true) tr = [].
Proof.
  induction 1 as [|e tr He _ IH]; [done|].
  rewrite filter_cons_False; [done|]. by rewrite He.
Qed.

Lemma removals_are_no_refresh (n : QueueRef) (l : list MemberState) :
  Forall (λ e, is_refresh e = false) ((λ s, EvTryRemoveFromQueue s n) <$> l).
Proof. apply Forall_fmap, Forall_forall. by intros s _. Qed.

Lemma sends_no_refresh (text : string) (l : list GuildMember) :
  Forall (λ e, is_refresh e = false) ((λ s, EvSend s text) <$> l).
Proof. apply Forall_fmap, Forall_forall. by intros s _. Qed.

Lemma refresh_at_end (tr : list Event) (q : HelpQueue) :
  Forall (λ e, is_refresh e = false) tr →
  filter (λ e, is_refresh e = true) (tr ++ [EvOnQueueUpdate q (queue q)])
  = [EvOnQueueUpdate q (queue q)] ∧
  last (tr ++ [EvOnQueueUpdate q (queue q)]) = Some (EvOnQueueUpdate q (queue q)).
Proof.
  intros Hno. split; [|apply last_snoc].
  by rewrite filter_app, no_refresh_filter.
Qed.

End queue_more_facts.

Section queue_more.
Context `{MSM : MemberStateManager} `{PF : Platform}.

(** X1.  [Has(member)] answers [true] exactly for the members that are
    waiting. *)
Theorem Has_iff_waiting (m : GuildMember) (q : HelpQueue) :
  (Has m q = true ↔ m ∈ members q) ∧ (Has m q = false ↔ m ∉ members q).
Proof.
  split; [apply Has_true_iff|].
  rewrite <- Has_true_iff. by destruct (Has m q).
Qed.

(** X2.  [Peek] announces what [Dequeue] does: with nobody waiting [Peek]
    is [undefined] and [Dequeue] throws "Empty queue"; a state that
    [Dequeue] returns is the state that [Peek] showed; and when [Peek]
    shows a state and the registry call for it returns, [Peek] shows
    afterwards the state that was second, and [Dequeue] returns the state
    that was shown unless the awaited refresh of the display is rejected,
    in which case it fails. *)
Theorem Peek_announces_Dequeue (q : HelpQueue) (reg : Registry) :
  Peek q = queue q !! 0 ∧
  (Peek q = None →
     Dequeue (mkWorld q reg)
     = (Thrown (new_UserError "Empty queue"), mkWorld q reg, [])) ∧
  (∀ s, outcome_of (Dequeue (mkWorld q reg)) = Returned s → Peek q = Some s) ∧
  (∀ s reg', Peek q = Some s →
     TryRemoveFromQueue s (name q) reg = inr reg' →
     let r := Dequeue (mkWorld q reg) in
     let q' := this_queue (world_after r) in
     Peek q' = queue q !! 1 ∧
     outcome_of r
     = if rejects (EvOnQueueUpdate q' (queue q')) then Failed else Returned s).
Proof.
  rewrite Dequeue_run. unfold Peek.
  destruct (queue q) as [|s0 rest] eqn:Hq; cbn [lookup list_lookup].
  - by repeat split.
  - split; [done|]. split; [done|]. cbv zeta. split.
    + intros s. destruct (TryRemoveFromQueue _ _ _) as [e|reg']; [done|].
      unfold outcome_of. cbn [fst]. destruct (fulfilled _); [|done].
      by intros [= ->].
    + intros s reg' [= <-] Hreg. rewrite Hreg.
      unfold outcome_of, world_after. cbn [fst snd this_queue queue set_queue].
      split; [by destruct rest|].
      unfold fulfilled. cbn [forallb]. rewrite andb_true_r.
      by destruct (rejects _).
Qed.

(** X3.  [RemoveHelper] for a member that is not a helper only warns:
    nothing changes and the display is not refreshed.  For a helper it
    removes the member, sends nothing to anybody and calls the display
    manager, and that is all; the call returns unless that refresh is
    rejected.  The queue is closed afterwards exactly when the member was
    the only helper; who is waiting and who subscribed is untouched. *)
Theorem RemoveHelper_closes_with_last (q : HelpQueue) (reg : Registry) (m : GuildMember) :
  (m ∉ helpers q →
     RemoveHelper m (mkWorld q reg)
     = (Returned (), mkWorld q reg,
        [EvWarn ("Queue " +:+ name q +:+ " does not have helper " +:+ username m
                 +:+ ". Ignoring call to RemoveHelper")])) ∧
  (m ∈ helpers q →
     let r := RemoveHelper m (mkWorld q reg) in
     let q' := this_queue (world_after r) in
     registry (world_after r) = reg ∧
     helpers q' = helpers q ∖ {[m]} ∧ (m ∉ helpers q') ∧
     queue q' = queue q ∧ notif_queue q' = notif_queue q ∧ name q' = name q ∧
     (is_open q' = false ↔ helpers q = {[m]}) ∧
     trace_of r = [EvOnQueueUpdate q' (queue q')] ∧
     outcome_of r
     = if rejects (EvOnQueueUpdate q' (queue q')) then Failed else Returned ()).
Proof.
  split; [apply RemoveHelper_absent|].
  intros Hin. cbv zeta. rewrite RemoveHelper_present by done. cbv zeta.
  unfold outcome_of, world_after, trace_of.
  cbn [fst snd this_queue registry helpers queue notif_queue name set_helpers].
  split; [done|]. split; [done|]. split.
  { intros [_ Hne]%elem_of_difference. apply Hne. by apply elem_of_singleton. }
  split; [done|]. split; [done|]. split; [done|]. split; [|split; [done|]].
  - rewrite <- not_true_iff_false, is_open_true_iff.
    cbn [helpers set_helpers]. split.
    + intros Hempty. apply dec_stable in Hempty.
      apply set_eq. intros x. rewrite elem_of_singleton. split.
      * intros Hx. destruct (decide (x = m)) as [|Hne]; [done|].
        assert (x ∈ helpers q ∖ {[m]}) as Hx'.
        { apply elem_of_difference. split; [done|]. by rewrite elem_of_singleton. }
        rewrite Hempty in Hx'. by apply not_elem_of_empty in Hx'.
      * by intros ->.
    + intros -> Hne. apply Hne. apply difference_diag_L.
  - apply awaited_one.
Qed.

(** X4.  [AddHelper] for a new helper of a queue that is open already adds
    the helper and calls the display manager, and that is all: nobody is
    sent a message and [notif_queue] is left as it is, for both values of
    [mute_notifs]; the call returns unless that refresh is rejected. *)
Theorem AddHelper_later_helper_silent (q : HelpQueue) (reg : Registry)
    (m : GuildMember) (mute_notifs : bool) :
  helpers q ≠ ∅ → m ∉ helpers q →
  let r := AddHelper m mute_notifs (mkWorld q reg) in
  let q' := this_queue (world_after r) in
  world_after r = mkWorld (set_helpers ({[m]} ∪ helpers q) q) reg ∧
  notif_queue q' = notif_queue q ∧
  size (helpers q') = S (size (helpers q)) ∧
  trace_of r = [EvOnQueueUpdate q' (queue q')] ∧
  outcome_of r
  = if rejects (EvOnQueueUpdate q' (queue q')) then Failed else Returned ().
Proof.
  intros Hopen Hnew. cbv zeta. rewrite AddHelper_new by done. cbv zeta.
  rewrite bool_decide_eq_false_2 by done. cbn [andb app].
  unfold outcome_of, world_after, trace_of.
  cbn [fst snd this_queue helpers queue notif_queue set_helpers].
  split; [done|]. split; [done|]. split; [|split; [done|apply awaited_one]].
  rewrite size_union, size_singleton; [done|].
  intros x ->%elem_of_singleton. done.
Qed.

(** X5.  [RemoveHelper] undoes [AddHelper]: for a member that was not a
    helper, after [AddHelper] then [RemoveHelper] the helpers and the
    waiting members are what they were, and the display manager was called
    twice; when [mute_notifs] is true the whole queue object is what it
    was. *)
Theorem AddHelper_then_RemoveHelper (q : HelpQueue) (reg : Registry)
    (m : GuildMember) (mute_notifs : bool) :
  m ∉ helpers q →
  let r1 := AddHelper m mute_notifs (mkWorld q reg) in
  let r2 := RemoveHelper m (world_after r1) in
  let q2 := this_queue (world_after r2) in
  helpers q2 = helpers q ∧ queue q2 = queue q ∧ name q2 = name q ∧
  registry (world_after r2) = reg ∧
  length (filter (λ e, is_refresh e = true) (trace_of r1 ++ trace_of r2)) = 2 ∧
  (mute_notifs = true → q2 = q).
Proof.
  intros Hnew r1 r2 q2. subst q2 r2 r1.
  destruct (AddHelper_new_world q reg m mute_notifs Hnew)
    as (q1 & tr & -> & Hh1 & Hq1 & Hn1 & Hrefresh & Hmuted).
  change (world_after (awaited [EvOnQueueUpdate q1 (queue q1)], mkWorld q1 reg, tr))
    with (mkWorld q1 reg).
  assert (Hin : m ∈ helpers q1).
  { rewrite Hh1. apply elem_of_union. left. by apply elem_of_singleton. }
  rewrite (RemoveHelper_present q1 reg m Hin). cbv zeta.
  unfold world_after, trace_of.
  cbn [fst snd this_queue registry helpers queue name set_helpers].
  assert (Hback : helpers q1 ∖ {[m]} = helpers q).
  { rewrite Hh1. apply set_eq. intros x.
    rewrite elem_of_difference, elem_of_union, elem_of_singleton.
    split; [intros [[?|?] ?]; done|]. intros Hx. split; [by right|].
    intros ->. done. }
  split; [done|]. split; [done|]. split; [done|]. split; [done|]. split.
  - rewrite filter_app, length_app, Hrefresh. done.
  - intros Hm. specialize (Hmuted Hm). rewrite Hback.
    destruct q, q1. simpl in *. by subst.
Qed.

(** X6.  The heads-up of [Enqueue]: once the registry call has returned,
    if nobody was waiting every helper is sent exactly one message,
    [Heads up! <@id> has joined "name".] with the id of the member who
    joined, and nobody else is sent anything; if somebody was waiting
    already, nobody is sent anything. *)
Theorem Enqueue_heads_up (q : HelpQueue) (reg reg' : Registry) (m helper : GuildMember) :
  TryAddToQueue (GetMemberState m) (name q) reg = inr reg' →
  sent_to helper (trace_of (Enqueue m (mkWorld q reg))) =
    if bool_decide (queue q = []) && bool_decide (helper ∈ helpers q)
    then ["Heads up! <@" +:+ user_id m +:+ "> has joined " +:+ dquote
          +:+ name q +:+ dquote +:+ "."]
    else [].
Proof.
  intros Hreg. rewrite Enqueue_run. cbv zeta. rewrite Hreg.
  unfold trace_of. cbn [snd].
  rewrite sent_to_cons_other by done. rewrite sent_to_app.
  assert (Hend : ∀ (b : bool) e,
    sent_to helper (if b then [EvOnQueueUpdate e (queue e)] else []) = []).
  { intros [] e; [|done]. by rewrite sent_to_cons_other. }
  rewrite Hend, app_nil_r.
  case_bool_decide; cbn [andb]; [|done].
  rewrite sent_to_fmap_send by apply NoDup_elements.
  apply (f_equal (λ b : bool, if b then _ else _)).
  apply bool_decide_ext, elem_of_elements.
Qed.

(** X7.  When the registry refuses, [Enqueue] and [Remove] change nothing:
    the error of the registry is thrown on, the queue object and the
    registry are what they were, nobody is sent a message and the display
    is not refreshed. *)
Theorem refused_call_changes_nothing (q : HelpQueue) (reg : Registry)
    (m : GuildMember) (e : UserError) :
  (TryAddToQueue (GetMemberState m) (name q) reg = inl e →
     Enqueue m (mkWorld q reg)
     = (Thrown e, mkWorld q reg, [EvTryAddToQueue (GetMemberState m) (name q)])) ∧
  (TryRemoveFromQueue (GetMemberState m) (name q) reg = inl e →
     Remove m (mkWorld q reg)
     = (Thrown e, mkWorld q reg, [EvTryRemoveFromQueue (GetMemberState m) (name q)])).
Proof.
  split; intros Hreg.
  - by rewrite Enqueue_run; cbv zeta; rewrite Hreg.
  - by rewrite Remove_run; cbv zeta; rewrite Hreg.
Qed.

(** X8.  [Dequeue] shifts the head off before it calls the registry: when
    that call throws, the error is thrown on and the display is not
    refreshed, but the head is no longer in the queue. *)
Theorem Dequeue_refused_drops_head (q : HelpQueue) (reg : Registry)
    (user_state : MemberState) (rest : list MemberState) (e : UserError) :
  queue q = user_state :: rest →
  TryRemoveFromQueue user_state (name q) reg = inl e →
  Dequeue (mkWorld q reg)
  = (Thrown e, mkWorld (set_queue rest q) reg,
     [EvTryRemoveFromQueue user_state (name q)]).
Proof. intros Hq Hreg. by rewrite Dequeue_run, Hq, Hreg. Qed.

End queue_more.

Section queue_more_members.
Context `{MSM : MemberStateManager} `{PF : Platform}.

(** X9.  Once the registry call has returned, [Remove(member)] leaves the
    member out of the queue ([Has] answers [false]), keeps everybody else,
    in the order they had, and calls the display manager last, with the
    queue as it is then; the call returns unless that refresh is
    rejected. *)
Theorem Remove_takes_member_out (q : HelpQueue) (reg reg' : Registry) (m : GuildMember) :
  TryRemoveFromQueue (GetMemberState m) (name q) reg = inr reg' →
  let r := Remove m (mkWorld q reg) in
  let q' := this_queue (world_after r) in
  (m ∉ members q') ∧ Has m q' = false ∧
  members q' `sublist_of` members q ∧
  (∀ x, x ≠ m → x ∈ members q' ↔ x ∈ members q) ∧
  last (trace_of r) = Some (EvOnQueueUpdate q' (queue q')) ∧
  outcome_of r
  = if rejects (EvOnQueueUpdate q' (queue q')) then Failed else Returned ().
Proof.
  intros Hreg r q'. subst q' r. rewrite Remove_run. cbv zeta. rewrite Hreg.
  unfold outcome_of, world_after, trace_of. cbn [fst snd this_queue].
  assert (Hout : m ∉ members (set_queue
            (filter (λ waiting_user, waiting_user ≠ GetMemberState m) (queue q)) q)).
  { rewrite elem_of_members. simpl. intros [Hne _]%list_elem_of_filter. done. }
  split; [done|]. split.
  { apply not_true_is_false. by rewrite Has_true_iff. }
  split; [apply fmap_sublist, sublist_filter|].
  split; [|split; [done|apply awaited_one]].
  intros x Hx. rewrite !elem_of_members. simpl. rewrite list_elem_of_filter.
  split; [by intros [_ ?]|]. intros Hin. split; [|done].
  intros [= ->]. done.
Qed.

(** X10.  [Remove] undoes [Enqueue]: for a member who was not waiting,
    when both registry calls return, [Enqueue] then [Remove] leaves the
    queue object exactly as it was. *)
Theorem Enqueue_then_Remove (q : HelpQueue) (reg reg1 reg2 : Registry) (m : GuildMember) :
  m ∉ members q →
  TryAddToQueue (GetMemberState m) (name q) reg = inr reg1 →
  TryRemoveFromQueue (GetMemberState m) (name q) reg1 = inr reg2 →
  world_after (Remove m (world_after (Enqueue m (mkWorld q reg)))) = mkWorld q reg2.
Proof.
  intros Hnew Hadd Hrem. rewrite Enqueue_run. cbv zeta. rewrite Hadd.
  unfold world_after at 2. cbn [fst snd].
  rewrite Remove_run. cbv zeta. cbn [name set_queue]. rewrite Hrem.
  unfold world_after. cbn [fst snd]. f_equal.
  cbn [queue set_queue]. rewrite filter_app, filter_absent.
  - rewrite filter_cons_False, filter_nil, app_nil_r by (intros Hne; by apply Hne).
    by destruct q.
  - by rewrite <- elem_of_members.
Qed.

(** X11.  [Enqueue] joins at the back: once the registry call has returned
    the queue is one longer, whoever was first is still first, and the
    member who joined is first only if nobody was waiting. *)
Theorem Enqueue_joins_at_the_back (q : HelpQueue) (reg reg' : Registry) (m : GuildMember) :
  TryAddToQueue (GetMemberState m) (name q) reg = inr reg' →
  let q' := this_queue (world_after (Enqueue m (mkWorld q reg))) in
  HelpQueue_length q' = S (HelpQueue_length q) ∧
  Peek q' = Some (default (GetMemberState m) (Peek q)) ∧
  last (queue q') = Some (GetMemberState m) ∧
  Has m q' = true.
Proof.
  intros Hreg q'. subst q'. rewrite Enqueue_run. cbv zeta. rewrite Hreg.
  unfold world_after, HelpQueue_length, Peek. cbn [fst snd this_queue queue set_queue].
  split; [rewrite length_app; simpl; lia|].
  split; [by destruct (queue q)|]. split; [apply last_snoc|].
  apply Has_true_iff, elem_of_members. simpl.
  apply elem_of_app. right. by apply list_elem_of_singleton.
Qed.

(** X12.  [Clear] is all or nothing for the queue.  It calls
    [TryRemoveFromQueue] for the waiting states in queue order.  Either
    every call returns: then the queue is empty, [Peek] is [undefined],
    the display manager is called last, with the empty queue, and [Clear]
    returns unless that refresh is rejected, in which case it fails with
    the queue emptied.  Or one of the calls throws: then [Clear] throws
    that error and stops there, the queue object is exactly what it was,
    nobody has been removed from it, and the display manager is not
    called.  Helpers and subscribers are never touched.  With a registry
    whose removal never throws it is the first case. *)
Theorem Clear_all_or_nothing (q : HelpQueue) (reg : Registry) :
  let r := Clear (mkWorld q reg) in
  let q' := this_queue (world_after r) in
  let calls := (λ s, EvTryRemoveFromQueue s (name q)) <$> queue q in
  let emptied :=
    queue q' = [] ∧ Peek q' = None ∧ HelpQueue_length q' = 0 ∧
    trace_of r = calls ++ [EvOnQueueUpdate q' []] ∧
    outcome_of r = (if rejects (EvOnQueueUpdate q' []) then Failed else Returned ()) in
  let untouched :=
    q' = q ∧ (∃ e, outcome_of r = Thrown e) ∧
    trace_of r `prefix_of` calls ∧
    filter (λ e, is_refresh e = true) (trace_of r) = [] in
  helpers q' = helpers q ∧ notif_queue q' = notif_queue q ∧ name q' = name q ∧
  (emptied ∨ untouched) ∧
  ((∀ s r0, ∃ r', TryRemoveFromQueue s (name q) r0 = inr r') → emptied).
Proof.
  cbv zeta.
  destruct (Clear_run q reg) as (o & reg' & tr & _ & Hnf & Hpre & Hall & Hret & ->).
  assert (Hemptied : ∀ u, o = Returned u →
    let r := (awaited [EvOnQueueUpdate (set_queue [] q) []],
              mkWorld (set_queue [] q) reg',
              tr ++ [EvOnQueueUpdate (set_queue [] q) []]) in
    let q' := this_queue (world_after r) in
    queue q' = [] ∧ Peek q' = None ∧ HelpQueue_length q' = 0 ∧
    trace_of r = ((λ s, EvTryRemoveFromQueue s (name q)) <$> queue q)
                 ++ [EvOnQueueUpdate q' []] ∧
    outcome_of r = (if rejects (EvOnQueueUpdate q' []) then Failed else Returned ())).
  { intros u Hu. cbv zeta. unfold outcome_of, world_after, trace_of.
    cbn [fst snd this_queue]. split; [done|]. split; [done|]. split; [done|].
    split; [by rewrite (Hall u Hu)|apply awaited_one]. }
  destruct o as [u|e|]; [| |done].
  - split; [done|]. split; [done|]. split; [done|].
    split; [left|intros _]; by apply (Hemptied u).
  - unfold outcome_of, world_after, trace_of. cbn [fst snd this_queue].
    split; [done|]. split; [done|]. split; [done|]. split.
    + right. split; [done|]. split; [by exists e|]. split; [done|].
      apply no_refresh_filter. destruct Hpre as [k Hk].
      pose proof (removals_are_no_refresh (name q) (queue q)) as Hno.
      rewrite Hk in Hno. by apply Forall_app in Hno as [? _].
    + intros Hnever. by specialize (Hret Hnever).
Qed.

(** X13.  [notif_queue] behaves as a set, whether the queue is open or
    closed and without any effect outside: subscribing puts the member in
    and doing it twice is the same as once; unsubscribing takes the member
    out; for a member who was not subscribed, subscribing and then
    unsubscribing gives back the queue object as it was.  Nothing is
    logged, sent or displayed by either call. *)
Theorem notif_queue_is_a_set (q : HelpQueue) (reg : Registry) (m : GuildMember) :
  let add := AddToNotifQueue m (mkWorld q reg) in
  let del := RemoveFromNotifQueue m (mkWorld q reg) in
  (outcome_of add = Returned () ∧ trace_of add = [] ∧
   outcome_of del = Returned () ∧ trace_of del = []) ∧
  (m ∈ notif_queue (this_queue (world_after add)) ∧
   m ∉ notif_queue (this_queue (world_after del))) ∧
  world_after (AddToNotifQueue m (world_after add)) = world_after add ∧
  (m ∉ notif_queue q →
   world_after (RemoveFromNotifQueue m (world_after add)) = mkWorld q reg).
Proof.
  intros add del. subst add del.
  unfold AddToNotifQueue, RemoveFromNotifQueue, update_this,
    outcome_of, world_after, trace_of. simpl.
  split; [done|]. split; [split|split].
  - apply elem_of_union. left. by apply elem_of_singleton.
  - intros [_ Hne]%elem_of_difference. apply Hne. by apply elem_of_singleton.
  - f_equal. unfold set_notif_queue. simpl. f_equal.
    apply set_eq. intros x. rewrite !elem_of_union. tauto.
  - intros Hnew. f_equal. destruct q as [l n h s]. unfold set_notif_queue. simpl in *.
    f_equal. apply set_eq. intros x.
    rewrite elem_of_difference, elem_of_union, elem_of_singleton.
    split; [intros [[?|?] ?]; done|]. intros Hx. split; [by right|].
    intros ->. done.
Qed.

(** X14.  Subscription decides who hears of the opening: when the first
    helper arrives with [mute_notifs] false, a member who subscribed just
    before is sent the opening message exactly once, and a member who
    unsubscribed just before is sent nothing. *)
Theorem subscription_decides_notification (q : HelpQueue) (reg : Registry)
    (s m : GuildMember) :
  helpers q = ∅ →
  let subscribed := world_after (AddToNotifQueue s (mkWorld q reg)) in
  let unsubscribed := world_after (RemoveFromNotifQueue s (mkWorld q reg)) in
  sent_to s (trace_of (AddHelper m false subscribed))
  = ["Hey! The `" +:+ name q +:+ "` queue is now open!"] ∧
  sent_to s (trace_of (AddHelper m false unsubscribed)) = [].
Proof.
  intros Hclosed subscribed unsubscribed. subst subscribed unsubscribed.
  unfold AddToNotifQueue, RemoveFromNotifQueue, update_this, world_after.
  cbn [fst snd this_queue registry].
  rewrite !AddHelper_first_loud by done. unfold trace_of. cbn [snd].
  rewrite !sent_to_app, !sent_to_fmap_send by apply NoDup_elements.
  rewrite !(sent_to_cons_other _ (EvOnQueueUpdate _ _)) by done.
  rewrite !sent_to_nil, !app_nil_r. simpl. split.
  - rewrite bool_decide_eq_true_2; [done|].
    apply elem_of_elements, elem_of_union. left. by apply elem_of_singleton.
  - rewrite bool_decide_eq_false_2; [done|].
    intros [_ Hne]%elem_of_elements%elem_of_difference.
    apply Hne. by apply elem_of_singleton.
Qed.

End queue_more_members.

Section queue_more_calls.
Context `{MSM : MemberStateManager} `{PF : Platform}.

Lemma AddHelper_cases q reg m mute_notifs :
  ∃ o q' tr,
    AddHelper m mute_notifs (mkWorld q reg) = (o, mkWorld q' reg, tr) ∧
    queue q' = queue q ∧ name q' = name q ∧
    ((o = Returned () ∧ q' = q ∧ filter (λ e, is_refresh e = true) tr = []) ∨
     (o = awaited [EvOnQueueUpdate q' (queue q')] ∧
      filter (λ e, is_refresh e = true) tr = [EvOnQueueUpdate q' (queue q')] ∧
      last tr = Some (EvOnQueueUpdate q' (queue q')))).
Proof.
  destruct (decide (m ∈ helpers q)) as [Hin|Hnew].
  - rewrite AddHelper_already by done. eexists _, _, _. split; [done|].
    split; [done|]. split; [done|]. by left.
  - rewrite AddHelper_new by done. cbv zeta.
    destruct (bool_decide (helpers q = ∅) && negb mute_notifs);
      eexists _, _, _; (split; [done|]); (split; [done|]); (split; [done|]);
      right; (split; [done|]).
    + apply refresh_at_end, sends_no_refresh.
    + by apply (refresh_at_end []).
Qed.

Lemma RemoveHelper_cases q reg m :
  ∃ o q' tr,
    RemoveHelper m (mkWorld q reg) = (o, mkWorld q' reg, tr) ∧
    queue q' = queue q ∧ name q' = name q ∧
    ((o = Returned () ∧ q' = q ∧ filter (λ e, is_refresh e = true) tr = []) ∨
     (o = awaited [EvOnQueueUpdate q' (queue q')] ∧
      filter (λ e, is_refresh e = true) tr = [EvOnQueueUpdate q' (queue q')] ∧
      last tr = Some (EvOnQueueUpdate q' (queue q')))).
Proof.
  destruct (decide (m ∈ helpers q)) as [Hin|Hnew].
  - rewrite RemoveHelper_present by done. eexists _, _, _. split; [done|].
    split; [done|]. split; [done|]. right. split; [done|].
    by apply (refresh_at_end []).
  - rewrite RemoveHelper_absent by done. eexists _, _, _. split; [done|].
    split; [done|]. split; [done|]. by left.
Qed.

Lemma awaited_failed (calls : list Event) :
  awaited calls = Failed → ∃ e, e ∈ calls ∧ rejects e = true.
Proof.
  unfold awaited, fulfilled. induction calls as [|e calls IH]; [done|].
  cbn [forallb]. destruct (rejects e) eqn:He.
  - intros _. exists e. split; [apply list_elem_of_here|done].
  - cbn [negb andb]. intros Hf. destruct (IH Hf) as (e' & Hin & He').
    exists e'. split; [by apply list_elem_of_further|done].
Qed.

Lemma awaited_returned (calls : list Event) :
  awaited calls = Returned () → ∀ e, e ∈ calls → rejects e = false.
Proof.
  unfold awaited, fulfilled. destruct (forallb _ calls) eqn:Hall; [|done].
  intros _ e Hin. rewrite forallb_forall in Hall.
  apply negb_true_iff, Hall. by apply list_elem_of_In.
Qed.

(** X15.  Each method writes only its own part of the queue object:
    [AddHelper] and [RemoveHelper] never change who is waiting nor the
    registry; [Enqueue], [Remove], [Dequeue] and [Clear] never change
    [helpers] nor [notif_queue]; the two subscription methods change
    [notif_queue] only; [EnsureQueueSafe] changes nothing.  No method
    changes [name], so the name is the same after any sequence of calls. *)
Theorem calls_keep_their_frame :
  (∀ (c : Call) (w : World),
     let q := this_queue w in
     let q' := this_queue (perform c w) in
     name q' = name q ∧
     match c with
     | CallAddHelper _ _ | CallRemoveHelper _ =>
         queue q' = queue q ∧ registry (perform c w) = registry w
     | CallEnqueue _ | CallRemove _ | CallDequeue | CallClear =>
         helpers q' = helpers q ∧ notif_queue q' = notif_queue q
     | CallAddToNotifQueue _ | CallRemoveFromNotifQueue _ =>
         queue q' = queue q ∧ helpers q' = helpers q ∧
         registry (perform c w) = registry w
     | CallEnsureQueueSafe => perform c w = w
     end) ∧
  (∀ (cs : list Call) (w : World),
     name (this_queue (run_calls cs w)) = name (this_queue w)).
Proof.
  assert (Hone : ∀ (c : Call) (w : World),
     let q := this_queue w in
     let q' := this_queue (perform c w) in
     name q' = name q ∧
     match c with
     | CallAddHelper _ _ | CallRemoveHelper _ =>
         queue q' = queue q ∧ registry (perform c w) = registry w
     | CallEnqueue _ | CallRemove _ | CallDequeue | CallClear =>
         helpers q' = helpers q ∧ notif_queue q' = notif_queue q
     | CallAddToNotifQueue _ | CallRemoveFromNotifQueue _ =>
         queue q' = queue q ∧ helpers q' = helpers q ∧
         registry (perform c w) = registry w
     | CallEnsureQueueSafe => perform c w = w
     end).
  { intros c [q reg]. cbv zeta. destruct c as [m mute|m|m|m| | |m|m|];
      cbn [perform this_queue registry].
    - destruct (AddHelper_cases q reg m mute) as (o & q' & tr & -> & ? & ? & _). done.
    - destruct (RemoveHelper_cases q reg m) as (o & q' & tr & -> & ? & ? & _). done.
    - rewrite Enqueue_run. cbv zeta. by destruct (TryAddToQueue _ _ _).
    - rewrite Remove_run. cbv zeta. by destruct (TryRemoveFromQueue _ _ _).
    - rewrite Dequeue_run. destruct (queue q); [done|].
      cbv zeta. by destruct (TryRemoveFromQueue _ _ _).
    - destruct (Clear_run q reg) as (o & reg' & tr & _ & _ & _ & _ & _ & ->).
      by destruct o.
    - done.
    - done.
    - by destruct q. }
  split; [exact Hone|].
  intros cs. induction cs as [|c cs IH]; intros w; [done|].
  unfold run_calls in *. simpl. rewrite IH. apply Hone.
Qed.

(** X16.  The display is refreshed last or not at all.  Whatever the
    outcome of a call, either the display manager was not called, or it
    was called exactly once, as the last thing the call did, with the
    queue object as the call leaves it.  A call that returns without
    having called it left [queue] and [helpers] as they were.  A call that
    returns was not refused anything it awaited: its refresh, if any, was
    fulfilled.  A call that fails was refused by the platform: one of the
    calls it made was rejected. *)
Theorem display_refreshed_last_or_not_at_all (c : Call) (w : World) :
  let r := attempt c w in
  let q' := this_queue (world_after r) in
  let refreshes := filter (λ e, is_refresh e = true) (trace_of r) in
  world_after r = perform c w ∧
  (refreshes = [] ∨
   (refreshes = [EvOnQueueUpdate q' (queue q')] ∧
    last (trace_of r) = Some (EvOnQueueUpdate q' (queue q')))) ∧
  (outcome_of r = Returned () →
   (refreshes = [] ∧
    queue q' = queue (this_queue w) ∧ helpers q' = helpers (this_queue w)) ∨
   (refreshes = [EvOnQueueUpdate q' (queue q')] ∧
    rejects (EvOnQueueUpdate q' (queue q')) = false)) ∧
  (outcome_of r = Failed → ∃ e, e ∈ trace_of r ∧ rejects e = true).
Proof.
  destruct w as [q reg]. cbv zeta.
  assert (Hone : ∀ q1, awaited [EvOnQueueUpdate q1 (queue q1)] = Returned () →
            rejects (EvOnQueueUpdate q1 (queue q1)) = false).
  { intros q1 Hret. apply (awaited_returned _ Hret), list_elem_of_here. }
  assert (Hlast : ∀ (tr : list Event) e, last tr = Some e → e ∈ tr).
  { intros tr e. induction tr as [|x [|y tr] IH]; [done| |].
    - intros [= ->]. apply list_elem_of_here.
    - intros Hl. apply list_elem_of_further, IH. exact Hl. }
  assert (Hfail : ∀ (tr : list Event) q1,
            last tr = Some (EvOnQueueUpdate q1 (queue q1)) →
            awaited [EvOnQueueUpdate q1 (queue q1)] = Failed →
            ∃ e, e ∈ tr ∧ rejects e = true).
  { intros tr q1 Hl Hf. destruct (awaited_failed _ Hf) as (e & Hin & He).
    apply list_elem_of_singleton in Hin as ->.
    exists (EvOnQueueUpdate q1 (queue q1)). split; [by apply Hlast|done]. }
  destruct c as [m mute|m|m|m| | |m|m|];
    cbn [attempt perform this_queue].
  - destruct (AddHelper_cases q reg m mute) as (o & q' & tr & -> & ? & ? & Hcase).
    split; [done|]. unfold outcome_of, world_after, trace_of. cbn [fst snd this_queue].
    destruct Hcase as [(-> & -> & Hno)|(-> & Hf & Hl)].
    + split; [by left|]. split; [by left|done].
    + split; [by right|]. split; [|by apply Hfail].
      intros Hret. right. split; [done|by apply Hone].
  - destruct (RemoveHelper_cases q reg m) as (o & q' & tr & -> & ? & ? & Hcase).
    split; [done|]. unfold outcome_of, world_after, trace_of. cbn [fst snd this_queue].
    destruct Hcase as [(-> & -> & Hno)|(-> & Hf & Hl)].
    + split; [by left|]. split; [by left|done].
    + split; [by right|]. split; [|by apply Hfail].
      intros Hret. right. split; [done|by apply Hone].
  - rewrite Enqueue_run. cbv zeta.
    destruct (TryAddToQueue _ _ _) as [e|reg']; (split; [done|]);
      unfold outcome_of, world_after, trace_of; cbn [fst snd this_queue].
    { split; [by left|]. by split. }
    set (q' := set_queue (queue q ++ [GetMemberState m]) q).
    set (heads_up := if bool_decide (queue q = []) then _ else _).
    assert (Hsends : Forall (λ e, is_refresh e = false)
                       (EvTryAddToQueue (GetMemberState m) (name q) :: heads_up)).
    { apply Forall_cons. split; [done|]. subst heads_up.
      case_bool_decide; [apply sends_no_refresh|done]. }
    destruct (fulfilled heads_up) eqn:Hheads.
    + rewrite app_comm_cons.
      destruct (refresh_at_end _ q' Hsends) as [Hf Hl].
      split; [by right|]. split; [|by apply Hfail].
      intros Hret. right. split; [done|by apply Hone].
    + rewrite app_nil_r. split; [left; by apply no_refresh_filter|].
      split; [done|]. intros _.
      destruct (awaited_failed heads_up) as (e & Hin & He).
      { unfold awaited. by rewrite Hheads. }
      exists e. split; [by apply list_elem_of_further|done].
  - rewrite Remove_run. cbv zeta.
    destruct (TryRemoveFromQueue _ _ _) as [e|reg']; (split; [done|]);
      unfold outcome_of, world_after, trace_of; cbn [fst snd this_queue].
    { split; [by left|]. by split. }
    set (q' := set_queue _ q).
    destruct (refresh_at_end [EvTryRemoveFromQueue (GetMemberState m) (name q)] q')
      as [Hf Hl]; [by repeat constructor|].
    split; [by right|]. split; [|by apply Hfail].
    intros Hret. right. split; [done|by apply Hone].
  - rewrite Dequeue_run. destruct (queue q) as [|s rest] eqn:Hq.
    { split; [done|]. split; [by left|]. by split. }
    cbv zeta.
    destruct (TryRemoveFromQueue _ _ _) as [e|reg'].
    { split; [done|]. split; [by left|]. by split. }
    change (fulfilled [EvOnQueueUpdate (set_queue rest q) rest])
      with (fulfilled [EvOnQueueUpdate (set_queue rest q) (queue (set_queue rest q))]).
    change [EvTryRemoveFromQueue s (name q); EvOnQueueUpdate (set_queue rest q) rest]
      with ([EvTryRemoveFromQueue s (name q)]
            ++ [EvOnQueueUpdate (set_queue rest q) (queue (set_queue rest q))]).
    destruct (refresh_at_end [EvTryRemoveFromQueue s (name q)] (set_queue rest q))
      as [Hf Hl]; [by repeat constructor|].
    destruct (fulfilled _) eqn:Hful; (split; [done|]);
      unfold outcome_of, world_after, trace_of; cbn [fst snd this_queue].
    + split; [by right|]. split; [|done]. intros _. right. split; [done|].
      apply Hone. unfold awaited. by rewrite Hful.
    + split; [by right|]. split; [done|]. intros _.
      apply (Hfail _ (set_queue rest q)); [done|].
      unfold awaited. by rewrite Hful.
  - destruct (Clear_run q reg) as (o & reg' & tr & _ & Hnf & Hpre & Hall & _ & ->).
    assert (Hno : Forall (λ e, is_refresh e = false) tr).
    { destruct Hpre as [k Hk].
      pose proof (removals_are_no_refresh (name q) (queue q)) as Hno.
      rewrite Hk in Hno. by apply Forall_app in Hno as [? _]. }
    destruct o as [u|e|]; [| |done]; (split; [done|]);
      unfold outcome_of, world_after, trace_of; cbn [fst snd this_queue].
    + destruct (refresh_at_end tr (set_queue [] q) Hno) as [Hf Hl].
      split; [by right|]. split; [|by apply (Hfail _ (set_queue [] q))].
      intros Hret. right. split; [done|by apply (Hone (set_queue [] q))].
    + split; [left; by apply no_refresh_filter|]. by split.
  - split; [done|]. split; [by left|]. split; [by left|done].
  - split; [done|]. split; [by left|]. split; [by left|done].
  - unfold HelpQueue_EnsureQueueSafe, await_all.
    unfold outcome_of, world_after, trace_of. cbn [fst snd this_queue].
    split; [done|]. split; [by left|]. split; [by left|].
    apply awaited_failed.
Qed.

(** X21.  After [AddHelper(member, mute_notifs)] the member is a helper
    and the queue is open, whether the member was a helper before or not,
    whatever [mute_notifs] is and whether or not the call returns.  For a
    member who was a helper already the call returns; for a new helper it
    returns unless the awaited refresh of the display is rejected. *)
Theorem AddHelper_opens (q : HelpQueue) (reg : Registry) (m : GuildMember)
    (mute_notifs : bool) :
  let r := AddHelper m mute_notifs (mkWorld q reg) in
  let q' := this_queue (world_after r) in
  m ∈ helpers q' ∧ is_open q' = true ∧
  helpers q' = {[m]} ∪ helpers q ∧
  outcome_of r
  = if bool_decide (m ∈ helpers q) then Returned ()
    else if rejects (EvOnQueueUpdate q' (queue q')) then Failed else Returned ().
Proof.
  cbv zeta.
  assert (Hopen : ∀ q', m ∈ helpers q' → is_open q' = true).
  { intros q' Hin. apply is_open_true_iff. intros Heq. rewrite Heq in Hin.
    by apply not_elem_of_empty in Hin. }
  destruct (decide (m ∈ helpers q)) as [Hin|Hnew].
  - rewrite AddHelper_already by done. rewrite bool_decide_eq_true_2 by done.
    unfold outcome_of, world_after. cbn [fst snd this_queue].
    split; [done|]. split; [by apply Hopen|]. split; [|done].
    apply set_eq. intros x. rewrite elem_of_union, elem_of_singleton.
    split; [by right|]. intros [->|?]; done.
  - destruct (AddHelper_new_world q reg m mute_notifs Hnew)
      as (q1 & tr & -> & Hh & _).
    rewrite bool_decide_eq_false_2 by done.
    unfold outcome_of, world_after. cbn [fst snd this_queue].
    assert (Hin : m ∈ helpers q1).
    { rewrite Hh. apply elem_of_union. left. by apply elem_of_singleton. }
    split; [done|]. split; [by apply Hopen|]. split; [done|apply awaited_one].
Qed.

End queue_more_calls.

Section queue_state_and_platform.
Context `{MSM : MemberStateManager}.

(** X22.  What the platform does to the calls a method awaits decides
    whether the method returns, never what it wrote: every method writes
    before it awaits, so the queue object and the registry after a call,
    and after any sequence of calls, are the same under any two
    platforms. *)
Theorem state_independent_of_platform (PF1 PF2 : Platform) :
  (∀ (c : Call) (w : World),
     perform (PF := PF1) c w = perform (PF := PF2) c w) ∧
  (∀ (cs : list Call) (w : World),
     run_calls (PF := PF1) cs w = run_calls (PF := PF2) cs w).
Proof.
  assert (Hone : ∀ (c : Call) (w : World),
            perform (PF := PF1) c w = perform (PF := PF2) c w).
  { intros c [q reg]. destruct c as [m mute|m|m|m| | |m|m|]; cbn [perform].
    - destruct (decide (m ∈ helpers q)) as [Hin|Hnew].
      + by rewrite !AddHelper_already.
      + by rewrite !AddHelper_new.
    - destruct (decide (m ∈ helpers q)) as [Hin|Hnew].
      + by rewrite !RemoveHelper_present.
      + by rewrite !RemoveHelper_absent.
    - rewrite !Enqueue_run. cbv zeta. by destruct (TryAddToQueue _ _ _).
    - rewrite !Remove_run. cbv zeta. by destruct (TryRemoveFromQueue _ _ _).
    - rewrite !Dequeue_run. destruct (queue q); [done|].
      cbv zeta. by destruct (TryRemoveFromQueue _ _ _).
    - destruct (Clear_run (PF := PF1) q reg)
        as (o & reg' & tr & Hrun & _ & _ & _ & _ & ->).
      destruct (Clear_run (PF := PF2) q reg)
        as (o2 & reg2 & tr2 & Hrun2 & _ & _ & _ & _ & ->).
      rewrite Hrun in Hrun2. injection Hrun2 as <- <- <-. by destruct o.
    - done.
    - done.
    - done. }
  split; [exact Hone|].
  intros cs. unfold run_calls. induction cs as [|c cs IH]; intros w; [done|].
  cbn [foldl]. by rewrite Hone, IH.
Qed.

End queue_state_and_platform.


(** * More on [HelpQueueDisplayManager]: publishing and reconciling *)

Section display_more_facts.

Lemma reconcile_none (dm : HelpQueueDisplayManager) (fetched : list Message) :
  filter (λ msg, author msg = client_user dm) fetched = [] →
  reconcile dm fetched = (set_queue_message None dm, []).
Proof. intros Hnone. unfold reconcile. by rewrite Hnone. Qed.

Lemma reconcile_single (dm : HelpQueueDisplayManager) (fetched : list Message) :
  length (filter (λ msg, author msg = client_user dm) fetched) = 1 →
  reconcile dm fetched = (dm, []).
Proof.
  intros Hone. unfold reconcile. rewrite Hone.
  rewrite bool_decide_eq_false_2 by lia. by rewrite bool_decide_eq_false_2 by lia.
Qed.

Lemma settle_delete_next_id (w : DisplayWorld) (p rest : list (Request * Reaction))
    (id : MessageId) :
  pending w = p ++ (message_delete id, then_nothing) :: rest →
  next_id (channel (settle (length p) w)) = next_id (channel w) ∧
  history (settle (length p) w) ≠ [].
Proof.
  intros Hp. rewrite (settle_middle _ _ _ _ _ Hp). simpl.
  destruct (has_message id (channel w)); simpl; (split; [done|]);
    by intros [? ?]%app_eq_nil.
Qed.

Lemma settle_deletes_next_id (ids : list MessageId) (w : DisplayWorld)
    (p : list (Request * Reaction)) :
  pending w = p ++ ((λ id, (message_delete id, then_nothing)) <$> ids) →
  next_id (channel (settle_all (replicate (length ids) (length p)) w))
  = next_id (channel w).
Proof.
  revert w. induction ids as [|id ids IH]; intros w Hp; [done|].
  destruct (settle_delete w p _ id Hp) as (_ & Hpend & _).
  destruct (settle_delete_next_id w p _ id Hp) as [Hnext _].
  unfold settle_all in *. simpl. by rewrite (IH _ Hpend).
Qed.

(** The world once [EnsureQueueSafe] has run to the end: the fetch has
    settled, and so have the deletes it made, if any. *)
Lemma reconciled_world (w : DisplayWorld) :
  let bots := λ c, filter (λ msg, author msg = client_user (manager w))
                          (pinned_messages c) in
  let found := bots (channel w) in
  let deletes := if bool_decide (1 < length found) then length found else 0 in
  let w1 := settle_all (replicate deletes (length (pending w)))
              (settle (length (pending w)) (EnsureQueueSafe w)) in
  manager w1 = (if bool_decide (length found = 1) then manager w
                else set_queue_message None (manager w)) ∧
  pending w1 = pending w ∧
  next_id (channel w1) = next_id (channel w) ∧
  channel_messages (channel w1)
  = (if bool_decide (1 < length found)
     then filter (λ msg, message_id msg ∉ message_id <$> found)
                 (channel_messages (channel w))
     else channel_messages (channel w)) ∧
  bots (channel w1) = (if bool_decide (length found = 1) then found else []).
Proof.
  intros bots found deletes w1. subst w1 deletes.
  rewrite EnsureQueueSafe_settled. unfold reconcile. fold (bots (channel w)). fold found.
  case_bool_decide as Hmany.
  - rewrite bool_decide_eq_false_2 by lia.
    set (w0 := mkDisplayWorld _ _ _ _).
    assert (Hpend : pending w0 = pending w
              ++ ((λ id, (message_delete id, then_nothing)) <$> (message_id <$> found))).
    { subst w0. simpl. by rewrite <- !list_fmap_compose. }
    destruct (settle_deletes (message_id <$> found) w0 (pending w) Hpend)
      as (Hm & Hp & Hc).
    pose proof (settle_deletes_next_id (message_id <$> found) w0 (pending w) Hpend)
      as Hn.
    rewrite length_fmap in Hm, Hp, Hc, Hn.
    split; [by rewrite Hm|]. split; [done|]. split; [by rewrite Hn|].
    split; [by rewrite Hc|].
    unfold bots, pinned_messages. rewrite Hc.
    apply elem_of_nil_inv. intros msg.
    rewrite !list_elem_of_filter. intros (Hbot & Hpin & Hid & Hin).
    apply Hid, list_elem_of_fmap. exists msg. split; [done|].
    unfold found, bots, pinned_messages. by rewrite !list_elem_of_filter.
  - case_bool_decide as Hnone; simpl; rewrite app_nil_r.
    + rewrite bool_decide_eq_false_2 by lia. repeat split.
      fold (bots (channel w)). fold found. by destruct found.
    + rewrite bool_decide_eq_true_2 by lia. by repeat split.
Qed.

End display_more_facts.


Section display_more.
Context `{TBL : AsciiTable}.

(** X18.  Editing in place.  A manager that holds a message edits it and
    does nothing else: no fetch, no [send].  When the edit has settled the
    manager holds the same message, no message was created or removed,
    every message with that id shows the text and controls of this update
    and every other message is as it was.  If the message is gone from the
    channel the edit is rejected, the channel stays as it is, and the
    manager still holds the handle of the missing message. *)
Theorem OnQueueUpdate_edits_in_place (q : HelpQueue) (queue_members : list MemberState)
    (w : DisplayWorld) (m : MessageId) :
  queue_message (manager w) = Some m →
  let options := mkMessageOptions (GetQueueText q queue_members)
                   [joinLeaveButtons q; notifButtons q] in
  let w1 := OnQueueUpdate q queue_members w in
  let w2 := settle (length (pending w)) w1 in
  (pending w1 = pending w ++ [(message_edit m options, then_nothing)] ∧
   history w1 = history w ++ [Issued (message_edit m options)]) ∧
  (manager w2 = manager w ∧ pending w2 = pending w ∧
   next_id (channel w2) = next_id (channel w)) ∧
  channel_messages (channel w2)
  = (λ msg, if bool_decide (message_id msg = m)
            then mkMessage (message_id msg) (author msg) options (pinned msg)
            else msg) <$> channel_messages (channel w) ∧
  (m ∉ message_id <$> channel_messages (channel w) →
   channel w2 = channel w ∧
   history w2 = history w1 ++ [Rejected (message_edit m options)]).
Proof.
  intros Hheld options w1 w2. subst w2 w1.
  unfold OnQueueUpdate. rewrite Hheld. fold options. unfold issue.
  split; [done|].
  rewrite (settle_middle _ (pending w) [] (message_edit m options) then_nothing) by done.
  cbn [serve manager channel]. unfold has_message.
  case_bool_decide as Hin; simpl; rewrite ?app_nil_r.
  - split; [done|]. split; [done|]. intros Hout. done.
  - split; [done|]. split; [|done].
    symmetry. rewrite <- (list_fmap_id (channel_messages (channel w))) at 2.
    apply list_fmap_ext. intros i msg Hmsg. simpl.
    rewrite bool_decide_eq_false_2; [done|].
    intros Hid. apply Hin, list_elem_of_fmap. exists msg. split; [done|].
    by eapply list_elem_of_lookup_2.
Qed.

End display_more.

(** X19.  After [EnsureQueueSafe] has found more than one pinned message of
    the bot and its deletes have settled, the channel holds no pinned
    message of the bot and the manager holds no message; the channel keeps
    exactly the messages whose id is not the id of a message found, and
    the id of the next message is unchanged.  This is the state in which
    the next update publishes a single fresh message. *)
Theorem EnsureQueueSafe_leaves_no_artifact (w : DisplayWorld) :
  let bots := λ c, filter (λ msg, author msg = client_user (manager w))
                          (pinned_messages c) in
  let found := bots (channel w) in
  1 < length found →
  let w1 := settle_all (replicate (length found) (length (pending w)))
              (settle (length (pending w)) (EnsureQueueSafe w)) in
  bots (channel w1) = [] ∧
  manager w1 = set_queue_message None (manager w) ∧
  pending w1 = pending w ∧
  next_id (channel w1) = next_id (channel w) ∧
  ∀ msg, msg ∈ channel_messages (channel w1) ↔
         msg ∈ channel_messages (channel w) ∧ message_id msg ∉ message_id <$> found.
Proof.
  intros bots found Hmany w1.
  pose proof (reconciled_world w) as Hw. cbv zeta in Hw.
  fold bots in Hw. fold found in Hw.
  rewrite !(bool_decide_eq_true_2 (1 < length found)) in Hw by done.
  rewrite !(bool_decide_eq_false_2 (length found = 1)) in Hw by lia.
  fold w1 in Hw. destruct Hw as (Hm & Hp & Hn & Hc & Hb).
  split; [done|]. split; [done|]. split; [done|]. split; [done|].
  intros msg. rewrite Hc, list_elem_of_filter. tauto.
Qed.

(** X20.  [EnsureQueueSafe] is idempotent: once it has run to the end, the
    fetch settled and the deletes too, running it again changes neither
    the manager nor the channel and makes no further call. *)
Theorem EnsureQueueSafe_twice (w : DisplayWorld) :
  let found := filter (λ msg, author msg = client_user (manager w))
                      (pinned_messages (channel w)) in
  let deletes := if bool_decide (1 < length found) then length found else 0 in
  let w1 := settle_all (replicate deletes (length (pending w)))
              (settle (length (pending w)) (EnsureQueueSafe w)) in
  let w2 := settle (length (pending w1)) (EnsureQueueSafe w1) in
  manager w2 = manager w1 ∧ channel w2 = channel w1 ∧ pending w2 = pending w1.
Proof.
  cbv zeta.
  pose proof (reconciled_world w) as Hw. cbv zeta beta in Hw.
  set (found := filter (λ msg, author msg = client_user (manager w))
                       (pinned_messages (channel w))) in *.
  set (w1 := settle_all _ (settle (length (pending w)) (EnsureQueueSafe w))) in *.
  destruct Hw as (Hm & Hp & Hn & Hc & Hb).
  assert (Huser : client_user (manager w1) = client_user (manager w)).
  { rewrite Hm. by case_bool_decide. }
  rewrite EnsureQueueSafe_settled. rewrite <- Huser in Hb.
  case_bool_decide as Hone.
  - rewrite reconcile_single by (by rewrite Hb). simpl.
    by rewrite app_nil_r.
  - rewrite reconcile_none by done. simpl. rewrite app_nil_r.
    split; [|done]. rewrite Hm. by destruct (manager w).
Qed.

(** * The further scenarios *)

Section further_scenarios.

#[local] Existing Instance reliable_platform.

Lemma Peek_announces_Dequeue_witness :
  let q := set_queue [GetMemberState alice; GetMemberState bob] (new_HelpQueue "algo-help") in
  let reg : gmap GuildMember QueueRef := {[alice := "algo-help"; bob := "algo-help"]} in
  Peek q = Some (GetMemberState alice) ∧
  let r := Dequeue (MSM := single_queue_registry)
             (mkWorld (MSM := single_queue_registry) q reg) in
  Peek (this_queue (world_after r)) = queue q !! 1 ∧
  outcome_of r = Returned (GetMemberState alice).
Proof.
  intros q reg. split; [reflexivity|].
  refine (proj2 (proj2 (proj2 (Peek_announces_Dequeue (MSM := single_queue_registry) q reg)))
            (GetMemberState alice) (delete alice reg) eq_refl _).
  apply single_queue_registry_remove_recorded, lookup_insert_eq.
Defined.

(** ta1, the only helper, stops: the queue closes. *)
Lemma RemoveHelper_closes_with_last_witness :
  let q := set_helpers {[ta1]} (new_HelpQueue "algo-help") in
  ta1 ∈ helpers q ∧ helpers q = {[ta1]} ∧
  let r := RemoveHelper (MSM := single_queue_registry) ta1 (mkWorld q ∅) in
  is_open (this_queue (world_after r)) = false ∧
  outcome_of r = Returned ().
Proof.
  intros q.
  assert (Hhelps : ta1 ∈ ({[ta1]} : gset GuildMember)).
  { apply elem_of_singleton. reflexivity. }
  split; [exact Hhelps|]. split; [reflexivity|].
  pose proof (proj2 (RemoveHelper_closes_with_last (MSM := single_queue_registry)
                       q ∅ ta1) Hhelps)
    as (_ & _ & _ & _ & _ & _ & Hlast & _ & Hout).
  split; [exact (proj2 Hlast eq_refl)|exact Hout].
Defined.

(** bob comes to help in a queue that ta1 opened and alice subscribed to. *)
Lemma AddHelper_later_helper_silent_witness :
  let q := set_notif_queue {[alice]} (set_helpers {[ta1]} (new_HelpQueue "algo-help")) in
  helpers q ≠ ∅ ∧ (bob ∉ helpers q) ∧
  let r := AddHelper (MSM := single_queue_registry) bob false (mkWorld q ∅) in
  world_after r
  = mkWorld (MSM := single_queue_registry) (set_helpers ({[bob]} ∪ helpers q) q) ∅ ∧
  notif_queue (this_queue (world_after r)) = notif_queue q.
Proof.
  intros q.
  assert (Hopen : ({[ta1]} : gset GuildMember) ≠ ∅).
  { intros Heq. assert (Hin : ta1 ∈ (∅ : gset GuildMember)).
    { rewrite <- Heq. apply elem_of_singleton. reflexivity. }
    exact (not_elem_of_empty _ Hin). }
  assert (Hnew : bob ∉ ({[ta1]} : gset GuildMember)).
  { intros Hin. apply elem_of_singleton in Hin. discriminate. }
  split; [exact Hopen|]. split; [exact Hnew|].
  pose proof (AddHelper_later_helper_silent (MSM := single_queue_registry)
                q ∅ bob false Hopen Hnew) as (Hworld & Hsubs & _).
  split; [exact Hworld|exact Hsubs].
Defined.

Lemma AddHelper_then_RemoveHelper_witness :
  let q := set_notif_queue {[alice]} (new_HelpQueue "algo-help") in
  (ta1 ∉ helpers q) ∧
  this_queue (world_after (RemoveHelper (MSM := single_queue_registry) ta1
    (world_after (AddHelper (MSM := single_queue_registry) ta1 true (mkWorld q ∅)))))
  = q.
Proof.
  intros q.
  assert (Hnew : ta1 ∉ helpers q) by apply not_elem_of_empty.
  split; [exact Hnew|].
  pose proof (AddHelper_then_RemoveHelper (MSM := single_queue_registry)
                q ∅ ta1 true Hnew) as (_ & _ & _ & _ & _ & Hsame).
  exact (Hsame eq_refl).
Defined.

(** bob joins the empty queue that ta1 helps with. *)
Lemma Enqueue_heads_up_witness :
  let q := set_helpers {[ta1]} (new_HelpQueue "algo-help") in
  let reg' : gmap GuildMember QueueRef := {[bob := "algo-help"]} in
  TryAddToQueue (MemberStateManager := single_queue_registry)
    (GetMemberState bob) (name q) ∅ = inr reg' ∧
  sent_to ta1 (trace_of (Enqueue (MSM := single_queue_registry) bob (mkWorld q ∅)))
  = if bool_decide (queue q = []) && bool_decide (ta1 ∈ helpers q)
    then ["Heads up! <@" +:+ user_id bob +:+ "> has joined " +:+ dquote
          +:+ name q +:+ dquote +:+ "."]
    else [].
Proof.
  intros q reg'.
  assert (Hadd : TryAddToQueue (MemberStateManager := single_queue_registry)
                   (GetMemberState bob) (name q) ∅ = inr reg') by reflexivity.
  split; [exact Hadd|].
  exact (Enqueue_heads_up (MSM := single_queue_registry) q ∅ reg' bob ta1 Hadd).
Defined.

(** alice asks to join twice; bob asks to leave a queue he is not in. *)
Lemma refused_call_changes_nothing_witness :
  let q := set_queue [GetMemberState alice] (new_HelpQueue "algo-help") in
  let reg : gmap GuildMember QueueRef := {[alice := "algo-help"]} in
  Enqueue (MSM := single_queue_registry) alice (mkWorld (MSM := single_queue_registry) q reg)
  = (Thrown (new_UserError "Already in a queue"),
     mkWorld (MSM := single_queue_registry) q reg,
     [EvTryAddToQueue (GetMemberState alice) "algo-help"]) ∧
  Remove (MSM := strict_registry) bob (mkWorld (MSM := strict_registry) q reg)
  = (Thrown (new_UserError "Not in the queue"),
     mkWorld (MSM := strict_registry) q reg,
     [EvTryRemoveFromQueue (GetMemberState bob) "algo-help"]).
Proof.
  intros q reg. split.
  - refine (proj1 (refused_call_changes_nothing (MSM := single_queue_registry)
                     q reg alice (new_UserError "Already in a queue")) _).
    apply (single_queue_registry_add_taken _ _ "algo-help"), lookup_singleton_eq.
  - refine (proj2 (refused_call_changes_nothing (MSM := strict_registry)
                     q reg bob (new_UserError "Not in the queue")) _).
    apply strict_registry_remove_absent, lookup_singleton_ne. discriminate.
Defined.

(** alice is first in the queue, and the registry does not know it. *)
Lemma Dequeue_refused_drops_head_witness :
  let q := set_queue [GetMemberState alice; GetMemberState bob] (new_HelpQueue "algo-help") in
  let reg : gmap GuildMember QueueRef := {[bob := "algo-help"]} in
  Dequeue (MSM := strict_registry) (mkWorld (MSM := strict_registry) q reg)
  = (Thrown (new_UserError "Not in the queue"),
     mkWorld (MSM := strict_registry) (set_queue [GetMemberState bob] q) reg,
     [EvTryRemoveFromQueue (GetMemberState alice) "algo-help"]).
Proof.
  intros q reg.
  refine (Dequeue_refused_drops_head (MSM := strict_registry) q reg
            (GetMemberState alice) [GetMemberState bob]
            (new_UserError "Not in the queue") eq_refl _).
  apply strict_registry_remove_absent, lookup_singleton_ne. discriminate.
Defined.

(** alice leaves while the display cannot be refreshed: she is out of the
    queue all the same, and [Remove] fails. *)
Lemma Remove_takes_member_out_witness :
  let q := set_queue [GetMemberState alice; GetMemberState bob] (new_HelpQueue "algo-help") in
  let reg : gmap GuildMember QueueRef := {[alice := "algo-help"; bob := "algo-help"]} in
  TryRemoveFromQueue (MemberStateManager := single_queue_registry)
    (GetMemberState alice) (name q) reg = inr (delete alice reg) ∧
  let r := Remove (MSM := single_queue_registry) (PF := stale_display) alice
             (mkWorld (MSM := single_queue_registry) q reg) in
  Has alice (this_queue (world_after r)) = false ∧
  outcome_of r = Failed.
Proof.
  intros q reg.
  assert (Hrem : TryRemoveFromQueue (MemberStateManager := single_queue_registry)
                   (GetMemberState alice) (name q) reg = inr (delete alice reg)).
  { apply single_queue_registry_remove_recorded, lookup_insert_eq. }
  split; [exact Hrem|].
  pose proof (Remove_takes_member_out (MSM := single_queue_registry)
                (PF := stale_display) q reg (delete alice reg) alice Hrem)
    as (_ & Hout & _ & _ & _ & Hfails).
  split; [exact Hout|exact Hfails].
Defined.

Lemma Enqueue_then_Remove_witness :
  let q := new_HelpQueue "algo-help" in
  let reg1 : gmap GuildMember QueueRef := {[bob := "algo-help"]} in
  (bob ∉ members q) ∧
  world_after (Remove (MSM := single_queue_registry) bob
    (world_after (Enqueue (MSM := single_queue_registry) bob (mkWorld q ∅))))
  = mkWorld (MSM := single_queue_registry) q (delete bob reg1).
Proof.
  intros q reg1.
  assert (Hnew : bob ∉ members q) by apply not_elem_of_nil.
  split; [exact Hnew|].
  refine (Enqueue_then_Remove (MSM := single_queue_registry) q ∅ reg1 (delete bob reg1)
            bob Hnew eq_refl _).
  apply single_queue_registry_remove_recorded, lookup_singleton_eq.
Defined.

Lemma Enqueue_joins_at_the_back_witness :
  let q := set_queue [GetMemberState alice] (new_HelpQueue "algo-help") in
  let reg : gmap GuildMember QueueRef := {[alice := "algo-help"]} in
  TryAddToQueue (MemberStateManager := single_queue_registry)
    (GetMemberState bob) (name q) reg = inr (<[bob := "algo-help"]> reg) ∧
  Peek (this_queue (world_after (Enqueue (MSM := single_queue_registry) bob
          (mkWorld (MSM := single_queue_registry) q reg))))
  = Some (GetMemberState alice).
Proof.
  intros q reg.
  assert (Hadd : TryAddToQueue (MemberStateManager := single_queue_registry)
                   (GetMemberState bob) (name q) reg = inr (<[bob := "algo-help"]> reg)).
  { apply (single_queue_registry_add_free (GetMemberState bob)).
    apply lookup_singleton_ne. discriminate. }
  split; [exact Hadd|].
  exact (proj1 (proj2 (Enqueue_joins_at_the_back (MSM := single_queue_registry)
                         q reg _ bob Hadd))).
Defined.

(** The queue of alice and bob is cleared, once with the display answering
    and once with the refresh rejected: emptied both times. *)
Lemma Clear_all_or_nothing_witness :
  let q := set_queue [GetMemberState alice; GetMemberState bob] (new_HelpQueue "algo-help") in
  (∀ s (r0 : gmap GuildMember QueueRef), ∃ r',
     TryRemoveFromQueue (MemberStateManager := single_queue_registry) s (name q) r0
     = inr r') ∧
  (let r := Clear (MSM := single_queue_registry) (mkWorld q ∅) in
   queue (this_queue (world_after r)) = [] ∧ outcome_of r = Returned ()) ∧
  (let r := Clear (MSM := single_queue_registry) (PF := stale_display) (mkWorld q ∅) in
   queue (this_queue (world_after r)) = [] ∧ outcome_of r = Failed).
Proof.
  intros q.
  assert (Hnever : ∀ s (r0 : gmap GuildMember QueueRef), ∃ r',
            TryRemoveFromQueue (MemberStateManager := single_queue_registry)
              s (name q) r0 = inr r').
  { intros s r0. simpl. case_bool_decide; eexists; reflexivity. }
  split; [exact Hnever|]. split.
  - pose proof (proj2 (proj2 (proj2 (proj2
        (Clear_all_or_nothing (MSM := single_queue_registry) q ∅)))) Hnever)
      as (Hempty & _ & _ & _ & Hout).
    split; [exact Hempty|exact Hout].
  - pose proof (proj2 (proj2 (proj2 (proj2
        (Clear_all_or_nothing (MSM := single_queue_registry) (PF := stale_display)
           q ∅)))) Hnever)
      as (Hempty & _ & _ & _ & Hout).
    split; [exact Hempty|exact Hout].
Defined.

Lemma notif_queue_is_a_set_witness :
  let q := new_HelpQueue "algo-help" in
  (alice ∉ notif_queue q) ∧
  world_after (RemoveFromNotifQueue (MSM := single_queue_registry) alice
    (world_after (AddToNotifQueue (MSM := single_queue_registry) alice (mkWorld q ∅))))
  = mkWorld (MSM := single_queue_registry) q ∅.
Proof.
  intros q.
  assert (Hnew : alice ∉ notif_queue q) by apply not_elem_of_empty.
  split; [exact Hnew|].
  exact (proj2 (proj2 (proj2
           (notif_queue_is_a_set (MSM := single_queue_registry) q ∅ alice))) Hnew).
Defined.

Lemma subscription_decides_notification_witness :
  let q := new_HelpQueue "algo-help" in
  helpers q = ∅ ∧
  sent_to alice (trace_of (AddHelper (MSM := single_queue_registry) ta1 false
    (world_after (AddToNotifQueue (MSM := single_queue_registry) alice (mkWorld q ∅)))))
  = ["Hey! The `" +:+ name q +:+ "` queue is now open!"].
Proof.
  intros q. split; [reflexivity|].
  exact (proj1 (subscription_decides_notification (MSM := single_queue_registry)
                  q ∅ alice ta1 eq_refl)).
Defined.

(** bob joins the empty queue that ta1 helps with, and ta1 cannot be
    reached: bob is waiting, the display manager is not called, and
    [Enqueue] fails on the rejected heads-up. *)
Example Enqueue_heads_up_rejected :
  let q := set_helpers {[ta1]} (new_HelpQueue "algo-help") in
  let r := attempt (MSM := single_queue_registry) (PF := unreachable ta1)
             (CallEnqueue bob) (mkWorld (MSM := single_queue_registry) q ∅) in
  outcome_of r = Failed ∧
  members (this_queue (world_after r)) = [bob] ∧
  filter (λ e, is_refresh e = true) (trace_of r) = [] ∧
  sent_to ta1 (trace_of r) = ["Heads up! <@1002> has joined " +:+ dquote
                              +:+ "algo-help" +:+ dquote +:+ "."].
Proof. vm_compute. repeat split. Qed.

(** ta1 opens the queue while the display cannot be refreshed: ta1 is a
    helper and the queue is open, the display manager was called last, and
    [AddHelper] fails. *)
Example AddHelper_refresh_rejected :
  let q := new_HelpQueue "algo-help" in
  let r := attempt (MSM := single_queue_registry) (PF := stale_display)
             (CallAddHelper ta1 true) (mkWorld (MSM := single_queue_registry) q ∅) in
  outcome_of r = Failed ∧
  is_open (this_queue (world_after r)) = true ∧
  trace_of r = [EvOnQueueUpdate (set_helpers {[ta1]} q) []].
Proof.
  intros q r. subst r. cbn [attempt].
  rewrite (AddHelper_first_muted (MSM := single_queue_registry) (PF := stale_display))
    by reflexivity.
  cbv zeta. unfold outcome_of, world_after, trace_of. cbn [fst snd this_queue].
  split; [reflexivity|]. split; [|reflexivity].
  apply is_open_true_iff. cbn [helpers set_helpers].
  intros Heq. assert (Hin : ta1 ∈ (∅ : gset GuildMember)).
  { rewrite <- Heq. apply elem_of_singleton. reflexivity. }
  exact (not_elem_of_empty _ Hin).
Qed.

(** The manager holds message 7, which somebody deleted. *)
Lemma OnQueueUpdate_edits_in_place_witness :
  let q := new_HelpQueue "algo-help" in
  let w := mkDisplayWorld (mkDisplayManager bot (Some 7)) (mkTextChannel [] 8) [] [] in
  queue_message (manager w) = Some 7 ∧
  (7 ∉ message_id <$> channel_messages (channel w)) ∧
  let w2 := settle (length (pending w)) (OnQueueUpdate (TBL := plain_table) q [] w) in
  manager w2 = manager w ∧ pending w2 = pending w ∧
  next_id (channel w2) = next_id (channel w).
Proof.
  intros q w.
  split; [reflexivity|]. split; [apply not_elem_of_nil|].
  exact (proj1 (proj2 (OnQueueUpdate_edits_in_place (TBL := plain_table) q [] w 7 eq_refl))).
Defined.

Lemma EnsureQueueSafe_leaves_no_artifact_witness :
  let w := display_with [stale_artifact 7; stale_artifact 8] 9 in
  let found := filter (λ msg, author msg = client_user (manager w))
                      (pinned_messages (channel w)) in
  1 < length found ∧
  filter (λ msg, author msg = client_user (manager w))
    (pinned_messages (channel
       (settle_all (replicate (length found) (length (pending w)))
          (settle (length (pending w)) (EnsureQueueSafe w))))) = [].
Proof.
  intros w found.
  assert (Hmany : 1 < length found) by (vm_compute; lia).
  split; [exact Hmany|].
  exact (proj1 (EnsureQueueSafe_leaves_no_artifact w Hmany)).
Defined.

End further_scenarios.
